(** * SimpleVector: a shallow embedding of [array_ptr.h] and [simple_vector.h]

    The C++ sources are translated method by method.  Heap arrays created by
    [new Type[n]] live in a store of blocks; raw pointers are a block together
    with an offset; [size_t] values are integers reduced modulo [2^w].  A
    method of [SimpleVector] takes the object it is called on and yields the
    object as the call leaves it, inside a monad that threads the store,
    propagates a thrown exception and records undefined behaviour (an access
    outside a block, a dangling pointer, [delete[]] of something not
    allocated).  The two assignment operators receive two references that may
    name the same object, so they run over a store of objects.

    Conventions.  [new] always succeeds: the store has no bound.  Moving an
    element is modelled as copying its value; the slot moved from is not read
    again before it is overwritten or dropped.  The standard algorithms are
    their reference loops, run element by element on the store.  Local
    [ArrayPtr] and [SimpleVector] objects are destroyed where their scope
    ends. *)

From stdpp Require Import gmap list strings.
From Stdlib Require Import ZArith Lia.

Local Open Scope Z_scope.

(** ** Raw pointers *)

Abbreviation loc := positive (only parsing).
Abbreviation addr := positive (only parsing).

(** A [Type*]: the block pointed into ([None] for the null pointer) and the
    offset, counted in elements. *)
Record ptr := Ptr { base : option loc; off : Z }.

Definition nullptr : ptr := Ptr None 0.

Definition ptr_add (p : ptr) (n : Z) : ptr := Ptr (base p) (off p + n).

Definition ptr_eqb (p q : ptr) : bool :=
  bool_decide (base p = base q) && (off p =? off q).

(** ** Exceptions and outcomes *)

Inductive exn := out_of_range (what : string).

Inductive outcome (S A : Type) :=
| Ok (a : A) (s : S)
| Throw (e : exn) (s : S)
| Undefined.
Arguments Ok {S A} a s.
Arguments Throw {S A} e s.
Arguments Undefined {S A}.

(** ** [ReserveProxyObj] and the free function [Reserve] *)

Module ReserveProxyObj.

Record t := Build { capacity_ : Z }.

Definition GetCapacity (p : t) : Z := capacity_ p.

End ReserveProxyObj.

(** The free function [Reserve(capacity_to_reserve)]; the method of the same
    name is [Reserve] below. *)
Definition Reserve_proxy (capacity_to_reserve : Z) : ReserveProxyObj.t :=
  ReserveProxyObj.Build capacity_to_reserve.

(** For the vector of integers of the examples: an allocator that leaves 77
    in the slots it hands out. *)
Definition int_indet : loc -> nat -> Z := fun _ _ => 77.

Section Model.

Set Default Proof Using "Type".

Context {T : Type}.

(** Bit width of [size_t]. *)
Variable w : Z.

(** The value-initialised element [Type()]. *)
Variable T_default : T.

(** The element type's [operator==] and [operator<]. *)
Variable elem_eq : T -> T -> bool.
Variable elem_lt : T -> T -> bool.

(** What [new Type[n]] leaves in slot [i] of the block it creates at [l]:
    [Type()] for a class type, an indeterminate value for a scalar. *)
Variable indet : loc -> nat -> T.

Abbreviation heap := (gmap loc (list T)).

(** [size_t] arithmetic wraps modulo [2^w]. *)
Definition size_t (z : Z) : Z := z mod 2 ^ w.

(** ** The store monad *)

Definition M (A : Type) : Type := heap -> outcome heap A.

Definition ret {A} (a : A) : M A := fun h => Ok a h.

Definition bind {A B} (m : M A) (k : A -> M B) : M B :=
  fun h =>
    match m h with
    | Ok a h' => k a h'
    | Throw e h' => Throw e h'
    | Undefined => Undefined
    end.

Definition throw {A} (e : exn) : M A := fun h => Throw e h.

Definition undefined {A} : M A := fun _ => Undefined.

Notation "'let*' x := m 'in' k" := (bind m (fun x => k))
  (at level 10, x name, m at level 100, k at level 200).

(** ** Memory operations *)

(** [*p] read. *)
Definition load (p : ptr) : M T :=
  fun h =>
    match base p with
    | Some l =>
        match h !! l with
        | Some buf =>
            if 0 <=? off p then
              match buf !! Z.to_nat (off p) with
              | Some x => Ok x h
              | None => Undefined
              end
            else Undefined
        | None => Undefined
        end
    | None => Undefined
    end.

(** [*p = x]. *)
Definition store (p : ptr) (x : T) : M unit :=
  fun h =>
    match base p with
    | Some l =>
        match h !! l with
        | Some buf =>
            if (0 <=? off p) && (off p <? Z.of_nat (length buf)) then
              Ok tt (<[l := <[Z.to_nat (off p) := x]> buf]> h)
            else Undefined
        | None => Undefined
        end
    | None => Undefined
    end.

(** [new Type[n]]: a block nobody else holds. *)
Definition new_array (n : Z) : M ptr :=
  fun h =>
    let l := fresh (dom h) in
    Ok (Ptr (Some l) 0) (<[l := indet l <$> seq 0 (Z.to_nat n)]> h).

(** [delete[] p]: nothing for the null pointer; otherwise [p] has to be what
    [new] returned and the block has to be live. *)
Definition delete_array (p : ptr) : M unit :=
  fun h =>
    match base p with
    | None => Ok tt h
    | Some l =>
        match h !! l with
        | Some _ => if off p =? 0 then Ok tt (delete l h) else Undefined
        | None => Undefined
        end
    end.

(** ** Standard algorithms, as their reference loops *)

(** Number of [++first] steps until [first == last]; the loops below run off
    their block when [last] is not reachable from [first]. *)
Definition distance (first last : ptr) : M nat :=
  fun h =>
    if bool_decide (base first = base last) && (off first <=? off last)
    then Ok (Z.to_nat (off last - off first)) h
    else Undefined.

(** [while (first != last) *d_first++ = *first++;] *)
Fixpoint copy_loop (n : nat) (first d_first : ptr) : M ptr :=
  match n with
  | O => ret d_first
  | S n' =>
      let* x := load first in
      let* _ := store d_first x in
      copy_loop n' (ptr_add first 1) (ptr_add d_first 1)
  end.

Definition std_copy (first last d_first : ptr) : M ptr :=
  let* n := distance first last in
  copy_loop n first d_first.

(** [while (first != last) *(--d_last) = *(--last);] *)
Fixpoint copy_backward_loop (n : nat) (last d_last : ptr) : M ptr :=
  match n with
  | O => ret d_last
  | S n' =>
      let* x := load (ptr_add last (-1)) in
      let* _ := store (ptr_add d_last (-1)) x in
      copy_backward_loop n' (ptr_add last (-1)) (ptr_add d_last (-1))
  end.

Definition std_copy_backward (first last d_last : ptr) : M ptr :=
  let* n := distance first last in
  copy_backward_loop n last d_last.

(** [for (; first != last; ++first) *first = value;] *)
Fixpoint fill_loop (n : nat) (first : ptr) (value : T) : M unit :=
  match n with
  | O => ret tt
  | S n' => let* _ := store first value in fill_loop n' (ptr_add first 1) value
  end.

Definition std_fill (first last : ptr) (value : T) : M unit :=
  let* n := distance first last in
  fill_loop n first value.

(** [std::equal]: walk both ranges, answer [false] at the first pair that
    the elements' [operator==] rejects, [true] when [first1] reaches
    [last1]. *)
Fixpoint equal_loop (n : nat) (first1 first2 : ptr) : M bool :=
  match n with
  | O => ret true
  | S n' =>
      let* x := load first1 in
      let* y := load first2 in
      if elem_eq x y
      then equal_loop n' (ptr_add first1 1) (ptr_add first2 1)
      else ret false
  end.

Definition std_equal (first1 last1 first2 : ptr) : M bool :=
  let* n := distance first1 last1 in
  equal_loop n first1 first2.

(** [std::lexicographical_compare]: while both ranges have elements, answer
    [true] if the left one is less, [false] if the right one is less, else
    advance; at the end answer [first1 == last1 && first2 != last2]. *)
Fixpoint lexicographical_loop (n1 n2 : nat) (first1 first2 : ptr) : M bool :=
  match n1, n2 with
  | S n1', S n2' =>
      let* x := load first1 in
      let* y := load first2 in
      if elem_lt x y then ret true
      else if elem_lt y x then ret false
      else lexicographical_loop n1' n2' (ptr_add first1 1) (ptr_add first2 1)
  | O, S _ => ret true
  | _, O => ret false
  end.

Definition std_lexicographical_compare
    (first1 last1 first2 last2 : ptr) : M bool :=
  let* n1 := distance first1 last1 in
  let* n2 := distance first2 last2 in
  lexicographical_loop n1 n2 first1 first2.

(** [p - q] on pointers into one array. *)
Definition ptr_diff (p q : ptr) : M Z :=
  if bool_decide (base p = base q) then ret (off p - off q) else undefined.

(** Copy out of an [initializer_list], whose backing array is the list. *)
Fixpoint copy_init (init : list T) (d_first : ptr) : M ptr :=
  match init with
  | [] => ret d_first
  | x :: init' =>
      let* _ := store d_first x in
      copy_init init' (ptr_add d_first 1)
  end.

(** ** [ArrayPtr] *)

Record ArrayPtr := { raw_ptr_ : ptr }.

(** [ArrayPtr() = default] *)
Definition ArrayPtr_default : ArrayPtr := {| raw_ptr_ := nullptr |}.

(** [explicit ArrayPtr(size_t size)] *)
Definition ArrayPtr_sized (size : Z) : M ArrayPtr :=
  if size =? 0 then ret ArrayPtr_default
  else let* p := new_array size in ret {| raw_ptr_ := p |}.

(** [explicit ArrayPtr(Type* raw_ptr)] *)
Definition ArrayPtr_raw (raw_ptr : ptr) : ArrayPtr := {| raw_ptr_ := raw_ptr |}.

(** [~ArrayPtr()] *)
Definition ArrayPtr_dtor (a : ArrayPtr) : M unit := delete_array (raw_ptr_ a).

(** [Release()]: the pointer handed out and the object afterwards. *)
Definition ArrayPtr_Release (a : ArrayPtr) : ptr * ArrayPtr :=
  let tmp := raw_ptr_ a in
  (tmp, {| raw_ptr_ := nullptr |}).

(** [operator[]]: the reference [*(raw_ptr_ + index)]. *)
Definition ArrayPtr_at (a : ArrayPtr) (index : Z) : ptr :=
  ptr_add (raw_ptr_ a) index.

(** [explicit operator bool()] *)
Definition ArrayPtr_bool (a : ArrayPtr) : bool :=
  negb (ptr_eqb (raw_ptr_ a) nullptr).

Definition ArrayPtr_Get (a : ArrayPtr) : ptr := raw_ptr_ a.

(** [swap(other)]: this object and [other] afterwards. *)
Definition ArrayPtr_swap (a other : ArrayPtr) : ArrayPtr * ArrayPtr :=
  let tmp := raw_ptr_ a in
  ({| raw_ptr_ := raw_ptr_ other |}, {| raw_ptr_ := tmp |}).

(** ** [SimpleVector] *)

Record SimpleVector :=
  { items_ : ArrayPtr; size_ : Z; capacity_ : Z }.

Definition begin (this : SimpleVector) : ptr := ArrayPtr_Get (items_ this).

Definition end_ (this : SimpleVector) : ptr :=
  ptr_add (begin this) (size_ this).

Definition cbegin (this : SimpleVector) : ptr := ArrayPtr_Get (items_ this).

Definition cend (this : SimpleVector) : ptr :=
  ptr_add (begin this) (size_ this).

(** [SimpleVector() noexcept = default]: the default member initialisers. *)
Definition SimpleVector_default : SimpleVector :=
  {| items_ := ArrayPtr_default; size_ := 0; capacity_ := 0 |}.

(** [explicit SimpleVector(size_t size)] *)
Definition SimpleVector_sized (size : Z) : M SimpleVector :=
  let* items := ArrayPtr_sized size in
  let this := {| items_ := items; size_ := 0; capacity_ := 0 |} in
  if negb (size =? 0) then
    let* _ := std_fill (begin this) (ptr_add (begin this) size) T_default in
    ret {| items_ := items; size_ := size; capacity_ := size |}
  else ret this.

(** [SimpleVector(size_t size, const Type& value)] *)
Definition SimpleVector_filled (size : Z) (value : T) : M SimpleVector :=
  let* items := ArrayPtr_sized size in
  let this := {| items_ := items; size_ := 0; capacity_ := 0 |} in
  if negb (size =? 0) then
    let* _ := std_fill (begin this) (ptr_add (begin this) size) value in
    ret {| items_ := items; size_ := size; capacity_ := size |}
  else ret this.

(** [SimpleVector(std::initializer_list<Type> init)] *)
Definition SimpleVector_init (init : list T) : M SimpleVector :=
  let init_size := Z.of_nat (length init) in
  let* items := ArrayPtr_sized init_size in
  let this := {| items_ := items; size_ := 0; capacity_ := 0 |} in
  let* _ := copy_init init (begin this) in
  ret {| items_ := items; size_ := init_size; capacity_ := init_size |}.

(** [SimpleVector(const SimpleVector& other)]: the buffer gets
    [other.capacity_] slots, [size_] is assigned, and [capacity_] keeps its
    default member initialiser. *)
Definition SimpleVector_copy (other : SimpleVector) : M SimpleVector :=
  let* items := ArrayPtr_sized (capacity_ other) in
  let this := {| items_ := items; size_ := 0; capacity_ := 0 |} in
  let* _ := std_copy (begin other) (end_ other) (begin this) in
  ret {| items_ := items_ this;
         size_ := size_ other;
         capacity_ := capacity_ this |}.

(** [swap(other)]: this object and [other] afterwards. *)
Definition swap (this other : SimpleVector) : SimpleVector * SimpleVector :=
  let '(items, other_items) := ArrayPtr_swap (items_ this) (items_ other) in
  ({| items_ := items; size_ := size_ other; capacity_ := capacity_ other |},
   {| items_ := other_items;
      size_ := size_ this;
      capacity_ := capacity_ this |}).

(** [SimpleVector(SimpleVector&& other) noexcept]: the new object and
    [other] afterwards. *)
Definition SimpleVector_move (other : SimpleVector)
    : SimpleVector * SimpleVector :=
  swap SimpleVector_default other.

(** [SimpleVector(const ReserveProxyObj& new_capacity)] *)
Definition SimpleVector_reserved (new_capacity : ReserveProxyObj.t)
    : M SimpleVector :=
  let* items := ArrayPtr_sized (ReserveProxyObj.GetCapacity new_capacity) in
  ret {| items_ := items;
         size_ := 0;
         capacity_ := ReserveProxyObj.GetCapacity new_capacity |}.

(** The implicit destructor destroys [items_]. *)
Definition SimpleVector_dtor (this : SimpleVector) : M unit :=
  ArrayPtr_dtor (items_ this).

Definition Reserve (new_capacity : Z) (this : SimpleVector) : M SimpleVector :=
  if capacity_ this <? new_capacity then
    let* new_array_ptr := ArrayPtr_sized new_capacity in
    let* _ := std_fill (ArrayPtr_Get new_array_ptr)
                (ptr_add (ArrayPtr_Get new_array_ptr) new_capacity)
                T_default in
    let* _ := std_copy (begin this) (end_ this)
                (ArrayPtr_Get new_array_ptr) in
    let '(items, new_array_ptr) :=
      ArrayPtr_swap (items_ this) new_array_ptr in
    let* _ := ArrayPtr_dtor new_array_ptr in
    ret {| items_ := items;
           size_ := size_ this;
           capacity_ := new_capacity |}
  else ret this.

Definition PushBack (item : T) (this : SimpleVector) : M SimpleVector :=
  if size_ this <? capacity_ this then
    let* _ := store (ArrayPtr_at (items_ this) (size_ this)) item in
    ret {| items_ := items_ this;
           size_ := size_t (size_ this + 1);
           capacity_ := capacity_ this |}
  else
    let new_capacity := Z.max (size_t 1) (size_t (capacity_ this * 2)) in
    let* new_array_ptr := ArrayPtr_sized new_capacity in
    let* _ := std_copy (begin this) (end_ this)
                (ArrayPtr_Get new_array_ptr) in
    let* _ := store (ArrayPtr_at new_array_ptr (size_ this)) item in
    let '(new_array_ptr, items) :=
      ArrayPtr_swap new_array_ptr (items_ this) in
    let* _ := ArrayPtr_dtor new_array_ptr in
    ret {| items_ := items;
           size_ := size_t (size_ this + 1);
           capacity_ := new_capacity |}.

(** [Insert(pos, value)]: the iterator returned and the object afterwards. *)
Definition Insert (pos : ptr) (value : T) (this : SimpleVector)
    : M (ptr * SimpleVector) :=
  let* d := ptr_diff pos (begin this) in
  let index := size_t d in
  if size_ this <? capacity_ this then
    let* _ := std_copy_backward (ArrayPtr_at (items_ this) index)
                (end_ this) (ptr_add (end_ this) 1) in
    let* _ := store (ArrayPtr_at (items_ this) index) value in
    let result := ArrayPtr_at (items_ this) index in
    ret (result,
         {| items_ := items_ this;
            size_ := size_t (size_ this + 1);
            capacity_ := capacity_ this |})
  else
    let new_capacity := Z.max (size_t 1) (size_t (capacity_ this * 2)) in
    let* new_array_ptr := ArrayPtr_sized new_capacity in
    let* _ := std_copy (begin this) (ArrayPtr_at (items_ this) index)
                (ArrayPtr_Get new_array_ptr) in
    let* _ := store (ArrayPtr_at new_array_ptr index) value in
    let* _ := std_copy (ArrayPtr_at (items_ this) index) (end_ this)
                (ptr_add (ptr_add (ArrayPtr_Get new_array_ptr) index) 1) in
    let '(new_array_ptr, items) :=
      ArrayPtr_swap new_array_ptr (items_ this) in
    let result := ArrayPtr_at items index in
    let* _ := ArrayPtr_dtor new_array_ptr in
    ret (result,
         {| items_ := items;
            size_ := size_t (size_ this + 1);
            capacity_ := new_capacity |}).

Definition PopBack (this : SimpleVector) : SimpleVector :=
  {| items_ := items_ this;
     size_ := size_t (size_ this - 1);
     capacity_ := capacity_ this |}.

(** [Erase(pos)]: the iterator returned and the object afterwards. *)
Definition Erase (pos : ptr) (this : SimpleVector)
    : M (ptr * SimpleVector) :=
  let* d := ptr_diff pos (begin this) in
  let index := size_t d in
  let* _ := std_copy (ArrayPtr_at (items_ this) (size_t (index + 1)))
              (end_ this) (ArrayPtr_at (items_ this) index) in
  let result := ArrayPtr_at (items_ this) index in
  ret (result,
       {| items_ := items_ this;
          size_ := size_t (size_ this - 1);
          capacity_ := capacity_ this |}).

Definition GetSize (this : SimpleVector) : Z := size_ this.

Definition GetCapacity (this : SimpleVector) : Z := capacity_ this.

Definition IsEmpty (this : SimpleVector) : bool := size_ this =? 0.

(** [operator[]]: the reference [items_[index]]. *)
Definition operator_index (index : Z) (this : SimpleVector) : ptr :=
  ArrayPtr_at (items_ this) index.

Definition At (index : Z) (this : SimpleVector) : M ptr :=
  if size_ this <=? index then throw (out_of_range "index >= size")
  else ret (ArrayPtr_at (items_ this) index).

Definition Clear (this : SimpleVector) : SimpleVector :=
  {| items_ := items_ this; size_ := 0; capacity_ := capacity_ this |}.

(** [for (size_t i = size_; i < new_size; i++) items_[i] = Type();] with
    [n] the number of [i] between [size_] and [new_size]. *)
Fixpoint Resize_loop (n : nat) (i : Z) (this : SimpleVector) : M unit :=
  match n with
  | O => ret tt
  | S n' =>
      let* _ := store (ArrayPtr_at (items_ this) i) T_default in
      Resize_loop n' (size_t (i + 1)) this
  end.

(** The middle branch runs the loop and leaves [size_] as it was. *)
Definition Resize (new_size : Z) (this : SimpleVector) : M SimpleVector :=
  if new_size <=? size_ this then
    ret {| items_ := items_ this;
           size_ := new_size;
           capacity_ := capacity_ this |}
  else if new_size <=? capacity_ this then
    let* _ := Resize_loop (Z.to_nat (new_size - size_ this))
                (size_ this) this in
    ret this
  else
    let new_capacity := Z.max (size_t (capacity_ this * 2)) new_size in
    let* new_array := ArrayPtr_sized new_capacity in
    let* _ := std_fill (ArrayPtr_Get new_array)
                (ptr_add (ArrayPtr_Get new_array) new_capacity) T_default in
    let* _ := std_copy (begin this) (end_ this) (ArrayPtr_Get new_array) in
    let '(new_array, items) := ArrayPtr_swap new_array (items_ this) in
    let* _ := ArrayPtr_dtor new_array in
    ret {| items_ := items; size_ := new_size; capacity_ := new_capacity |}.

(** ** Comparison operators *)

Definition operator_eq (lhs rhs : SimpleVector) : M bool :=
  if GetSize lhs =? GetSize rhs then
    std_equal (begin lhs) (end_ lhs) (begin rhs)
  else ret false.

Definition operator_ne (lhs rhs : SimpleVector) : M bool :=
  let* b := operator_eq lhs rhs in ret (negb b).

Definition operator_lt (lhs rhs : SimpleVector) : M bool :=
  std_lexicographical_compare (begin lhs) (end_ lhs) (begin rhs) (end_ rhs).

Definition operator_le (lhs rhs : SimpleVector) : M bool :=
  let* b := operator_lt rhs lhs in ret (negb b).

Definition operator_gt (lhs rhs : SimpleVector) : M bool :=
  let* b := operator_le lhs rhs in ret (negb b).

Definition operator_ge (lhs rhs : SimpleVector) : M bool :=
  let* b := operator_lt lhs rhs in ret (negb b).

(** ** Assignment, over a store of objects *)

Abbreviation objects := (gmap addr SimpleVector).

Definition deref (a : addr) (objs : objects) : M SimpleVector :=
  match objs !! a with
  | Some v => ret v
  | None => undefined
  end.

(** [operator=(const SimpleVector& rhs)]; [tmp] is destroyed on leaving the
    block. *)
Definition assign_copy (this rhs : addr) (objs : objects) : M objects :=
  if bool_decide (this ≠ rhs) then
    let* r := deref rhs objs in
    let* tmp := SimpleVector_copy r in
    let* t := deref this objs in
    let '(t, tmp) := swap t tmp in
    let objs := <[this := t]> objs in
    let* _ := SimpleVector_dtor tmp in
    ret objs
  else ret objs.


(** ** Observations the properties are stated with *)

(** The array an [ArrayPtr] owns: none for the null pointer, else the live
    block that [new] returned. *)
Definition block (h : heap) (a : ArrayPtr) : option (list T) :=
  if off (raw_ptr_ a) =? 0 then
    match base (raw_ptr_ a) with
    | None => Some []
    | Some l => h !! l
    end
  else None.

(** What the pointer [Ptr b 0] of an [ArrayPtr] refers to: no slots for the
    null pointer, else the live block [b]. *)
Definition refers (h : heap) (b : option loc) (buf : list T) : Prop :=
  match b with
  | None => buf = []
  | Some l => h !! l = Some buf
  end.

(** [this] owns the array [buf] of [capacity_] slots. *)
Definition owns (h : heap) (this : SimpleVector) (buf : list T) : Prop :=
  block h (items_ this) = Some buf ∧ Z.of_nat (length buf) = capacity_ this.

(** The class invariant. *)
Definition invariant (this : SimpleVector) : Prop :=
  0 <= size_ this <= capacity_ this.

(** [this[i]], read through [operator[]]. *)
Definition elem (h : heap) (this : SimpleVector) (i : Z) : option T :=
  match load (operator_index i this) h with
  | Ok x _ => Some x
  | _ => None
  end.

(** The elements read at indices [0 .. size_ - 1], in order. *)
Definition contents (h : heap) (this : SimpleVector) : option (list T) :=
  mapM (fun i => elem h this (Z.of_nat i)) (seq 0 (Z.to_nat (size_ this))).

(** The store once [a] has been destroyed. *)
Definition released (h : heap) (a : ArrayPtr) : heap :=
  match base (raw_ptr_ a) with
  | None => h
  | Some l => delete l h
  end.

(** An overwritten segment: [xs] laid over [buf] from slot [j] on. *)
Definition splice (buf : list T) (j : nat) (xs : list T) : list T :=
  take j buf ++ xs ++ drop (j + length xs) buf.

(** [PushBack] of each value of [xs], first to last. *)
Fixpoint PushBack_all (xs : list T) (this : SimpleVector) : M SimpleVector :=
  match xs with
  | [] => ret this
  | x :: xs' => let* this' := PushBack x this in PushBack_all xs' this'
  end.

(** Lexicographic order on sequences by the elements' [operator<], two
    elements counting as equivalent when neither is less than the other. *)
Inductive lex_less : list T -> list T -> Prop :=
| lex_less_nil y ys : lex_less [] (y :: ys)
| lex_less_head x xs y ys : elem_lt x y = true -> lex_less (x :: xs) (y :: ys)
| lex_less_tail x xs y ys :
    elem_lt x y = false -> elem_lt y x = false -> lex_less xs ys ->
    lex_less (x :: xs) (y :: ys).

(** The elements [xs] can be read one after the other from [p] on. *)
Definition readable (h : heap) (p : ptr) (xs : list T) : Prop :=
  forall (k : nat) x,
    xs !! k = Some x -> load (ptr_add p (Z.of_nat k)) h = Ok x h.

(** Same size and pairwise equal by the elements' [operator==]. *)
Definition pairwise_equal (xs ys : list T) : Prop :=
  Forall2 (fun x y => elem_eq x y = true) xs ys.

(** * Properties *)

(** ** The monad *)

Lemma bind_Ok {A B} (m : M A) (k : A -> M B) h a h' :
  m h = Ok a h' -> bind m k h = k a h'.
Proof. intros E. unfold bind. by rewrite E. Qed.

Lemma bind_ret {A B} (a : A) (k : A -> M B) h : bind (ret a) k h = k a h.
Proof. reflexivity. Qed.

(** ** Loads and stores *)

Lemma ptr_add_Ptr b (i n : Z) : ptr_add (Ptr b i) n = Ptr b (i + n).
Proof. reflexivity. Qed.

Lemma load_Ok (h : heap) l buf (i : Z) x :
  h !! l = Some buf -> 0 <= i -> buf !! Z.to_nat i = Some x ->
  load (Ptr (Some l) i) h = Ok x h.
Proof.
  intros Hl Hi Hx. unfold load; simpl. rewrite Hl.
  destruct (Z.leb_spec 0 i); [|lia]. by rewrite Hx.
Qed.

Lemma store_Ok (h : heap) l buf (i : Z) x :
  h !! l = Some buf -> 0 <= i < Z.of_nat (length buf) ->
  store (Ptr (Some l) i) x h = Ok tt (<[l := <[Z.to_nat i := x]> buf]> h).
Proof.
  intros Hl Hi. unfold store; simpl. rewrite Hl.
  destruct (Z.leb_spec 0 i); [|lia].
  destruct (Z.ltb_spec i (Z.of_nat (length buf))); [|lia]. done.
Qed.

Lemma distance_Ok (h : heap) b (i k : Z) :
  i <= k -> distance (Ptr b i) (Ptr b k) h = Ok (Z.to_nat (k - i)) h.
Proof.
  intros Hik. unfold distance; simpl.
  rewrite bool_decide_eq_true_2 by done.
  destruct (Z.leb_spec i k); [done | lia].
Qed.

(** ** The copy loops *)

Lemma splice_nil (buf : list T) j : splice buf j [] = buf.
Proof. unfold splice; simpl. by rewrite Nat.add_0_r, take_drop. Qed.

Lemma length_splice (buf : list T) j xs :
  (j + length xs <= length buf)%nat -> length (splice buf j xs) = length buf.
Proof.
  intros H. unfold splice.
  rewrite !length_app, length_take, length_drop. lia.
Qed.

(** Forward copy of [n] elements from slot [i] of [ls] to slot [j] of [ld];
    inside one block the destination must not lie after the source. *)
Lemma copy_loop_Ok n : forall ls ld (i j : nat) (h : heap) bs bd,
  h !! ls = Some bs -> h !! ld = Some bd ->
  (i + n <= length bs)%nat -> (j + n <= length bd)%nat ->
  (ls ≠ ld ∨ (j <= i)%nat) ->
  copy_loop n (Ptr (Some ls) (Z.of_nat i)) (Ptr (Some ld) (Z.of_nat j)) h
  = Ok (Ptr (Some ld) (Z.of_nat (j + n)))
       (<[ld := splice bd j (take n (drop i bs))]> h).
Proof.
  induction n as [|n IH]; intros ls ld i j h bs bd Hs Hd Hi Hj Hdir.
  - simpl. unfold ret. rewrite take_0, splice_nil, Nat.add_0_r.
    by rewrite insert_id.
  - destruct (lookup_lt_is_Some_2 bs i) as [x Hx]; [lia|].
    cbn [copy_loop].
    rewrite (bind_Ok _ _ _ _ _ (load_Ok h ls bs (Z.of_nat i) x Hs
               ltac:(lia) ltac:(by rewrite Nat2Z.id))).
    rewrite (bind_Ok _ _ _ _ _ (store_Ok h ld bd (Z.of_nat j) x Hd
               ltac:(lia))).
    rewrite Nat2Z.id, !ptr_add_Ptr.
    replace (Z.of_nat i + 1) with (Z.of_nat (S i)) by lia.
    replace (Z.of_nat j + 1) with (Z.of_nat (S j)) by lia.
    set (bd1 := <[j := x]> bd).
    assert (Hs1 : ∃ bs1, <[ld := bd1]> h !! ls = Some bs1
                         ∧ drop (S i) bs1 = drop (S i) bs
                         ∧ length bs1 = length bs).
    { destruct (decide (ls = ld)) as [->|Hne].
      - exists bd1. rewrite lookup_insert_eq. split; [done|].
        assert (bs = bd) by congruence. subst bs. unfold bd1.
        rewrite length_insert. split; [|done].
        apply drop_insert_lt. destruct Hdir; [done | lia].
      - exists bs. by rewrite lookup_insert_ne. }
    destruct Hs1 as (bs1 & Hs1 & Hdrop & Hlen).
    rewrite (IH ls ld (S i) (S j) _ bs1 bd1 Hs1 (lookup_insert_eq _ _ _));
      [| lia | unfold bd1; rewrite length_insert; lia
       | destruct Hdir; [by left | right; lia] ].
    rewrite insert_insert_eq. f_equal; [f_equal; lia|]. f_equal.
    rewrite Hdrop. unfold splice, bd1.
    rewrite (drop_S bs x i Hx). cbn [take length].
    rewrite !length_take, !length_drop.
    rewrite (take_S_r _ j x) by (apply list_lookup_insert_eq; lia).
    rewrite take_insert_ge by lia. rewrite drop_insert_lt by lia.
    rewrite <- app_assoc. cbn [app]. do 4 f_equal. lia.
Qed.

Lemma splice_cons (buf : list T) j x xs :
  (j < length buf)%nat ->
  splice (<[j := x]> buf) (S j) xs = splice buf j (x :: xs).
Proof.
  intros Hj. unfold splice.
  rewrite (take_S_r _ j x) by (by apply list_lookup_insert_eq).
  rewrite take_insert_ge by lia. rewrite drop_insert_lt by lia.
  rewrite <- app_assoc. cbn [app length]. do 4 f_equal. lia.
Qed.

Lemma splice_snoc (buf : list T) j x xs :
  (j + length xs < length buf)%nat ->
  splice (<[(j + length xs)%nat := x]> buf) j xs = splice buf j (xs ++ [x]).
Proof.
  intros Hj. unfold splice.
  rewrite take_insert_ge by lia.
  rewrite (drop_S _ x (j + length xs))
    by (by apply list_lookup_insert_eq).
  rewrite drop_insert_lt by lia.
  rewrite <- app_assoc, length_app. cbn [app length]. do 4 f_equal. lia.
Qed.

(** Backward copy of the [n] elements from slot [i] of [ls] on to slot [j]
    of [ld] on; inside one block the destination must not lie before the
    source. *)
Lemma copy_backward_loop_Ok n : forall ls ld (i j : nat) (h : heap) bs bd,
  h !! ls = Some bs -> h !! ld = Some bd ->
  (i + n <= length bs)%nat -> (j + n <= length bd)%nat ->
  (ls ≠ ld ∨ (i <= j)%nat) ->
  copy_backward_loop n (Ptr (Some ls) (Z.of_nat (i + n)))
    (Ptr (Some ld) (Z.of_nat (j + n))) h
  = Ok (Ptr (Some ld) (Z.of_nat j))
       (<[ld := splice bd j (take n (drop i bs))]> h).
Proof.
  induction n as [|n IH]; intros ls ld i j h bs bd Hs Hd Hi Hj Hdir.
  - simpl. unfold ret. rewrite take_0, splice_nil, !Nat.add_0_r.
    by rewrite insert_id.
  - destruct (lookup_lt_is_Some_2 bs (i + n)) as [x Hx]; [lia|].
    cbn [copy_backward_loop]. rewrite !ptr_add_Ptr.
    replace (Z.of_nat (i + S n) + -1) with (Z.of_nat (i + n)) by lia.
    replace (Z.of_nat (j + S n) + -1) with (Z.of_nat (j + n)) by lia.
    rewrite (bind_Ok _ _ _ _ _ (load_Ok h ls bs (Z.of_nat (i + n)) x Hs
               ltac:(lia) ltac:(by rewrite Nat2Z.id))).
    rewrite (bind_Ok _ _ _ _ _ (store_Ok h ld bd (Z.of_nat (j + n)) x Hd
               ltac:(lia))).
    rewrite Nat2Z.id.
    set (bd1 := <[(j + n)%nat := x]> bd).
    assert (Hs1 : ∃ bs1, <[ld := bd1]> h !! ls = Some bs1
                         ∧ take n (drop i bs1) = take n (drop i bs)
                         ∧ length bs1 = length bs).
    { destruct (decide (ls = ld)) as [->|Hne].
      - exists bd1. rewrite lookup_insert_eq. split; [done|].
        assert (bs = bd) by congruence. subst bs. unfold bd1.
        rewrite length_insert. split; [|done].
        assert ((i <= j)%nat) by (destruct Hdir; [done | lia]).
        rewrite drop_insert_ge by lia. apply take_insert_ge. lia.
      - exists bs. by rewrite lookup_insert_ne. }
    destruct Hs1 as (bs1 & Hs1 & Htake & Hlen).
    rewrite (IH ls ld i j _ bs1 bd1 Hs1 (lookup_insert_eq _ _ _));
      [| lia | unfold bd1; rewrite length_insert; lia | done ].
    rewrite insert_insert_eq. do 2 f_equal.
    rewrite Htake.
    assert (Hn : length (take n (drop i bs)) = n).
    { rewrite length_take, length_drop. lia. }
    rewrite (take_S_r _ n x) by (by rewrite lookup_drop).
    rewrite <- splice_snoc by lia. unfold bd1. by rewrite Hn.
Qed.

Lemma fill_loop_Ok n : forall l (j : nat) (h : heap) bd value,
  h !! l = Some bd -> (j + n <= length bd)%nat ->
  fill_loop n (Ptr (Some l) (Z.of_nat j)) value h
  = Ok tt (<[l := splice bd j (replicate n value)]> h).
Proof.
  induction n as [|n IH]; intros l j h bd value Hl Hj.
  - simpl. unfold ret. by rewrite splice_nil, insert_id.
  - cbn [fill_loop].
    rewrite (bind_Ok _ _ _ _ _ (store_Ok h l bd (Z.of_nat j) value Hl
               ltac:(lia))).
    rewrite Nat2Z.id, ptr_add_Ptr.
    replace (Z.of_nat j + 1) with (Z.of_nat (S j)) by lia.
    rewrite (IH l (S j) _ _ value (lookup_insert_eq _ _ _))
      by (rewrite length_insert; lia).
    rewrite insert_insert_eq. cbn [replicate].
    by rewrite splice_cons by lia.
Qed.

Lemma copy_init_Ok init : forall l (j : nat) (h : heap) bd,
  h !! l = Some bd -> (j + length init <= length bd)%nat ->
  copy_init init (Ptr (Some l) (Z.of_nat j)) h
  = Ok (Ptr (Some l) (Z.of_nat (j + length init)))
       (<[l := splice bd j init]> h).
Proof.
  induction init as [|x init IH]; intros l j h bd Hl Hj.
  - simpl. unfold ret. by rewrite splice_nil, insert_id, Nat.add_0_r.
  - cbn [copy_init length] in *.
    rewrite (bind_Ok _ _ _ _ _ (store_Ok h l bd (Z.of_nat j) x Hl
               ltac:(lia))).
    rewrite Nat2Z.id, ptr_add_Ptr.
    replace (Z.of_nat j + 1) with (Z.of_nat (S j)) by lia.
    rewrite (IH l (S j) _ _ (lookup_insert_eq _ _ _))
      by (rewrite length_insert; lia).
    rewrite insert_insert_eq, splice_cons by lia.
    do 3 f_equal. lia.
Qed.

(** ** Ranges given by pointers *)

Lemma block_inv (h : heap) a buf :
  block h a = Some buf ->
  ∃ b, a = {| raw_ptr_ := Ptr b 0 |} ∧ refers h b buf.
Proof.
  destruct a as [[b o]]. unfold block; simpl.
  destruct (Z.eqb_spec o 0) as [->|]; [|done].
  intros Hb. exists b. split; [done|].
  destruct b; simpl; congruence.
Qed.

Lemma block_Ptr (h : heap) b buf :
  refers h b buf -> block h {| raw_ptr_ := Ptr b 0 |} = Some buf.
Proof. unfold block, refers; simpl. destruct b; congruence. Qed.

Lemma refers_insert_ne (h : heap) b buf l bd :
  refers h b buf -> h !! l = None -> refers (<[l := bd]> h) b buf.
Proof.
  destruct b as [l0|]; simpl; [|done]. intros Hb Hl.
  rewrite lookup_insert_ne; [done | congruence].
Qed.

Lemma refers_insert_other (h : heap) b buf l bd :
  refers h b buf -> b ≠ Some l -> refers (<[l := bd]> h) b buf.
Proof.
  destruct b as [l0|]; simpl; [|done]. intros Hb Hl.
  rewrite lookup_insert_ne; [done | congruence].
Qed.

Lemma fresh_None (h : heap) : h !! fresh (dom h) = None.
Proof. apply not_elem_of_dom, is_fresh. Qed.

Lemma refers_fresh (h : heap) b buf :
  refers h b buf -> b ≠ Some (fresh (dom h)).
Proof.
  destruct b as [l|]; simpl; [|done]. intros Hl [= ->].
  by rewrite fresh_None in Hl.
Qed.

Lemma std_copy_Ok (h : heap) b bs (i k j : Z) ld bd :
  refers h b bs -> 0 <= i <= k -> k <= Z.of_nat (length bs) ->
  h !! ld = Some bd -> 0 <= j -> j + (k - i) <= Z.of_nat (length bd) ->
  (b ≠ Some ld ∨ j <= i) ->
  std_copy (Ptr b i) (Ptr b k) (Ptr (Some ld) j) h
  = Ok (Ptr (Some ld) (j + (k - i)))
       (<[ld := splice bd (Z.to_nat j)
                  (take (Z.to_nat (k - i)) (drop (Z.to_nat i) bs))]> h).
Proof.
  intros Hb Hik Hk Hd Hj Hjk Hdir. unfold std_copy.
  rewrite (bind_Ok _ _ _ _ _ (distance_Ok h b i k ltac:(lia))).
  destruct b as [ls|]; simpl in Hb.
  - replace (Ptr (Some ls) i)
      with (Ptr (Some ls) (Z.of_nat (Z.to_nat i))) by (f_equal; lia).
    replace (Ptr (Some ld) j)
      with (Ptr (Some ld) (Z.of_nat (Z.to_nat j))) by (f_equal; lia).
    rewrite (copy_loop_Ok _ ls ld _ _ h bs bd Hb Hd); [| lia | lia |].
    + do 2 f_equal. lia.
    + destruct Hdir as [Hne|Hle]; [left; congruence | right; lia].
  - subst bs. simpl in Hk.
    replace (Z.to_nat (k - i)) with 0%nat by lia.
    simpl. unfold ret. rewrite splice_nil, insert_id by done.
    do 2 f_equal. lia.
Qed.

Lemma std_copy_backward_Ok (h : heap) l buf (i k : Z) :
  h !! l = Some buf -> 0 <= i <= k -> k + 1 <= Z.of_nat (length buf) ->
  std_copy_backward (Ptr (Some l) i) (Ptr (Some l) k) (Ptr (Some l) (k + 1)) h
  = Ok (Ptr (Some l) (i + 1))
       (<[l := splice buf (Z.to_nat (i + 1))
                 (take (Z.to_nat (k - i)) (drop (Z.to_nat i) buf))]> h).
Proof.
  intros Hl Hik Hk. unfold std_copy_backward.
  rewrite (bind_Ok _ _ _ _ _ (distance_Ok h (Some l) i k ltac:(lia))).
  replace (Ptr (Some l) k)
    with (Ptr (Some l) (Z.of_nat (Z.to_nat i + Z.to_nat (k - i))))
    by (f_equal; lia).
  replace (Ptr (Some l) (k + 1))
    with (Ptr (Some l) (Z.of_nat (Z.to_nat (i + 1) + Z.to_nat (k - i))))
    by (f_equal; lia).
  rewrite (copy_backward_loop_Ok _ l l _ _ h buf buf Hl Hl);
    [| lia | lia | right; lia].
  do 2 f_equal. lia.
Qed.

Lemma std_fill_Ok (h : heap) l bd (k : Z) value :
  h !! l = Some bd -> 0 <= k <= Z.of_nat (length bd) ->
  std_fill (Ptr (Some l) 0) (Ptr (Some l) k) value h
  = Ok tt (<[l := splice bd 0 (replicate (Z.to_nat k) value)]> h).
Proof.
  intros Hl Hk. unfold std_fill.
  rewrite (bind_Ok _ _ _ _ _ (distance_Ok h (Some l) 0 k ltac:(lia))).
  rewrite Z.sub_0_r.
  change (Ptr (Some l) 0) with (Ptr (Some l) (Z.of_nat 0)).
  by rewrite (fill_loop_Ok _ l 0 h bd value Hl) by lia.
Qed.

Lemma splice_0_all (bd xs : list T) :
  length xs = length bd -> splice bd 0 xs = xs.
Proof.
  intros H. unfold splice. rewrite take_0. cbn [app].
  rewrite drop_ge by lia. by rewrite app_nil_r.
Qed.

(** ** Allocation and release *)

Lemma ArrayPtr_sized_Ok (h : heap) (n : Z) :
  0 < n ->
  ArrayPtr_sized n h
  = Ok {| raw_ptr_ := Ptr (Some (fresh (dom h))) 0 |}
       (<[fresh (dom h) := indet (fresh (dom h)) <$> seq 0 (Z.to_nat n)]> h).
Proof.
  intros Hn. unfold ArrayPtr_sized.
  destruct (Z.eqb_spec n 0); [lia|]. reflexivity.
Qed.

Lemma ArrayPtr_sized_0 (h : heap) : ArrayPtr_sized 0 h = Ok ArrayPtr_default h.
Proof. reflexivity. Qed.

Lemma length_new (l : loc) (n : Z) :
  0 <= n -> Z.of_nat (length (indet l <$> seq 0 (Z.to_nat n))) = n.
Proof. intros Hn. rewrite length_fmap, length_seq. lia. Qed.

Lemma ArrayPtr_dtor_Ok (h : heap) b buf :
  refers h b buf ->
  ArrayPtr_dtor {| raw_ptr_ := Ptr b 0 |} h
  = Ok tt (released h {| raw_ptr_ := Ptr b 0 |}).
Proof.
  unfold ArrayPtr_dtor, delete_array, released, refers; simpl.
  destruct b as [l|]; [|done]. by intros ->.
Qed.

Lemma released_lookup_ne (h : heap) b l :
  b ≠ Some l -> released h {| raw_ptr_ := Ptr b 0 |} !! l = h !! l.
Proof.
  unfold released; simpl. destruct b as [l0|]; [|done].
  intros Hne. apply lookup_delete_ne. congruence.
Qed.

(** ** Reading a vector *)

Lemma ptr_add_0 p : ptr_add p 0 = p.
Proof. destruct p. unfold ptr_add; simpl. f_equal. lia. Qed.

Lemma ptr_add_add p (n m : Z) : ptr_add (ptr_add p n) m = ptr_add p (n + m).
Proof. unfold ptr_add; simpl. f_equal. lia. Qed.

Lemma readable_nil (h : heap) p : readable h p [].
Proof. intros k x Hk. by rewrite lookup_nil in Hk. Qed.

Lemma readable_cons_inv (h : heap) p x xs :
  readable h p (x :: xs) ->
  load p h = Ok x h ∧ readable h (ptr_add p 1) xs.
Proof.
  intros Hr. split.
  - rewrite <- (ptr_add_0 p). by apply (Hr 0%nat).
  - intros k y Hk. rewrite ptr_add_add.
    replace (1 + Z.of_nat k) with (Z.of_nat (S k)) by lia.
    by apply Hr.
Qed.

Lemma readable_block (h : heap) b buf (n : nat) :
  refers h b buf -> readable h (Ptr b 0) (take n buf).
Proof.
  intros Hb k x Hk. rewrite ptr_add_Ptr, Z.add_0_l.
  apply lookup_take_Some in Hk as [Hk _].
  destruct b as [l|]; simpl in Hb.
  - apply (load_Ok h l buf); [done | lia | by rewrite Nat2Z.id].
  - subst buf. by rewrite lookup_nil in Hk.
Qed.

Lemma owns_inv (h : heap) this buf :
  owns h this buf ->
  ∃ b, items_ this = {| raw_ptr_ := Ptr b 0 |} ∧ refers h b buf
       ∧ Z.of_nat (length buf) = capacity_ this.
Proof.
  intros [Hb Hlen]. apply block_inv in Hb as (b & Hi & Hb). eauto.
Qed.

Lemma owns_readable (h : heap) this buf :
  owns h this buf ->
  readable h (begin this) (take (Z.to_nat (size_ this)) buf).
Proof.
  intros (b & Hi & Hb & _)%owns_inv. unfold begin, ArrayPtr_Get.
  rewrite Hi; simpl. by apply readable_block.
Qed.

Lemma readable_contents (h : heap) this xs :
  readable h (begin this) xs -> Z.of_nat (length xs) = size_ this ->
  contents h this = Some xs.
Proof.
  intros Hr Hlen. unfold contents. apply mapM_Some.
  apply Forall2_same_length_lookup. split.
  - rewrite length_seq. lia.
  - intros k i x Hi Hx. apply lookup_seq in Hi as [-> _]. simpl.
    unfold elem, operator_index, ArrayPtr_at.
    unfold begin, ArrayPtr_Get in Hr. by rewrite (Hr k x Hx).
Qed.

Lemma owns_contents (h : heap) this buf :
  owns h this buf -> invariant this ->
  contents h this = Some (take (Z.to_nat (size_ this)) buf).
Proof.
  intros Ho [H0 Hc]. apply readable_contents; [by apply owns_readable|].
  destruct Ho as [_ Hlen]. rewrite length_take. lia.
Qed.

(** ** [size_t] arithmetic *)

(** [size_t] has at least one bit. *)
Hypothesis w_pos : 0 < w.

Lemma pow_w_ge_2 : 2 <= 2 ^ w.
Proof using w_pos.
  change 2 with (2 ^ 1) at 1. apply Z.pow_le_mono_r; lia.
Qed.

Lemma size_t_small z : 0 <= z < 2 ^ w -> size_t z = z.
Proof. apply Z.mod_small. Qed.

Lemma size_t_1 : size_t 1 = 1.
Proof using w_pos. apply size_t_small. pose proof pow_w_ge_2. lia. Qed.

(** ** [PushBack] *)

Lemma PushBack_Ok (h : heap) this buf item :
  owns h this buf -> invariant this -> capacity_ this < 2 ^ w ->
  (size_ this = capacity_ this -> 2 * capacity_ this < 2 ^ w) ->
  ∃ this' h' buf',
    PushBack item this h = Ok this' h'
    ∧ owns h' this' buf'
    ∧ size_ this' = size_ this + 1
    ∧ capacity_ this' = (if size_ this <? capacity_ this then capacity_ this
                         else Z.max 1 (2 * capacity_ this))
    ∧ take (Z.to_nat (size_ this')) buf'
      = take (Z.to_nat (size_ this)) buf ++ [item]
    ∧ (forall l, base (raw_ptr_ (items_ this)) ≠ Some l ->
                 is_Some (h !! l) -> h' !! l = h !! l).
Proof using w_pos.
  intros Ho [H0 Hle] Hcap Hdbl. pose proof pow_w_ge_2 as Hw.
  destruct (owns_inv _ _ _ Ho) as (b & Hi & Hb & Hlen).
  destruct this as [items size capacity]; simpl in *. subst items.
  unfold PushBack; simpl.
  destruct (Z.ltb_spec size capacity) as [Hlt|Hge].
  - (* room left *)
    destruct b as [l|]; simpl in Hb; [|subst buf; simpl in Hlen; lia].
    unfold ArrayPtr_at; simpl.
    rewrite (bind_Ok _ _ _ _ _ (store_Ok h l buf size item Hb ltac:(lia))).
    unfold ret. rewrite size_t_small by lia.
    eexists _, _, (<[Z.to_nat size := item]> buf).
    split; [reflexivity|]. simpl. repeat split.
    + unfold block; simpl. by rewrite lookup_insert_eq.
    + by rewrite length_insert.
    + replace (Z.to_nat (size + 1)) with (S (Z.to_nat size)) by lia.
      rewrite (take_S_r _ _ item) by (apply list_lookup_insert_eq; lia).
      by rewrite take_insert_ge.
    + intros l' Hne _. rewrite lookup_insert_ne; [done | congruence].
  - (* reallocation *)
    assert (size = capacity) as -> by lia. specialize (Hdbl eq_refl).
    rewrite size_t_1, (size_t_small (capacity * 2)) by lia.
    set (new_capacity := Z.max 1 (capacity * 2)).
    assert (Hnew : capacity < new_capacity) by lia.
    rewrite (bind_Ok _ _ _ _ _ (ArrayPtr_sized_Ok h new_capacity ltac:(lia))).
    set (l' := fresh (dom h)).
    set (bd := indet l' <$> seq 0 (Z.to_nat new_capacity)).
    assert (Hbd : Z.of_nat (length bd) = new_capacity)
      by (apply length_new; lia).
    unfold begin, end_, ArrayPtr_Get, ArrayPtr_at; simpl.
    rewrite (bind_Ok _ _ _ _ _
      (std_copy_Ok (<[l' := bd]> h) b buf 0 capacity 0 l' bd
         (refers_insert_ne _ _ _ _ _ Hb (fresh_None h))
         ltac:(lia) ltac:(lia) (lookup_insert_eq _ _ _)
         ltac:(lia) ltac:(lia) (or_introl (refers_fresh _ _ _ Hb)))).
    rewrite insert_insert_eq, Z.sub_0_r, drop_0. change (Z.to_nat 0) with 0%nat.
    set (bd1 := splice bd 0 (take (Z.to_nat capacity) buf)).
    assert (Hbd1 : length bd1 = length bd).
    { apply length_splice. rewrite length_take. lia. }
    rewrite (bind_Ok _ _ _ _ _
      (store_Ok (<[l' := bd1]> h) l' bd1 capacity item
         (lookup_insert_eq _ _ _) ltac:(lia))).
    rewrite insert_insert_eq.
    set (bd2 := <[Z.to_nat capacity := item]> bd1).
    rewrite (bind_Ok _ _ _ _ _
      (ArrayPtr_dtor_Ok (<[l' := bd2]> h) b buf
         (refers_insert_ne _ _ _ _ _ Hb (fresh_None h)))).
    unfold ret. rewrite size_t_small by lia.
    eexists _, _, bd2. split; [reflexivity|]. simpl.
    pose proof (refers_fresh _ _ _ Hb) as Hfresh. fold l' in Hfresh.
    repeat split.
    + unfold block; simpl.
      by rewrite (released_lookup_ne _ b l' Hfresh), lookup_insert_eq.
    + unfold bd2. rewrite length_insert. simpl. lia.
    + destruct (Z.ltb_spec capacity capacity); [lia|].
      unfold new_capacity. f_equal. lia.
    + replace (Z.to_nat (capacity + 1)) with (S (Z.to_nat capacity)) by lia.
      unfold bd2.
      rewrite (take_S_r _ _ item) by (apply list_lookup_insert_eq; lia).
      rewrite take_insert_ge by lia. f_equal.
      unfold bd1, splice. rewrite take_0. cbn [app].
      rewrite take_app_length'; [done|]. rewrite length_take. lia.
    + intros l Hne [x Hx].
      rewrite (released_lookup_ne _ b l) by done.
      apply lookup_insert_ne. intros Heq. rewrite <- Heq in Hx.
      unfold l' in Hx. by rewrite fresh_None in Hx.
Qed.

Lemma contents_elem (h : heap) this xs (i : nat) x :
  contents h this = Some xs -> xs !! i = Some x ->
  elem h this (Z.of_nat i) = Some x.
Proof.
  intros Hc Hx. apply mapM_Some in Hc.
  assert (Hi : (i < Z.to_nat (size_ this))%nat).
  { apply Forall2_length in Hc. rewrite length_seq in Hc.
    apply lookup_lt_Some in Hx. lia. }
  by apply (Forall2_lookup_lr _ _ _ i i x Hc); [apply lookup_seq_lt|].
Qed.

Lemma owns_default (h : heap) : owns h SimpleVector_default [].
Proof. by split. Qed.

Lemma PushBack_all_Ok xs : forall (h : heap) this buf,
  owns h this buf -> invariant this -> capacity_ this < 2 ^ w ->
  2 * (size_ this + Z.of_nat (length xs)) <= 2 ^ w ->
  ∃ this' h' buf',
    PushBack_all xs this h = Ok this' h'
    ∧ owns h' this' buf' ∧ invariant this'
    ∧ size_ this' = size_ this + Z.of_nat (length xs)
    ∧ take (Z.to_nat (size_ this')) buf'
      = take (Z.to_nat (size_ this)) buf ++ xs.
Proof using w_pos.
  induction xs as [|x xs IH]; intros h this buf Ho Hinv Hcap Hbound.
  - exists this, h, buf. simpl. rewrite Z.add_0_r, app_nil_r. done.
  - cbn [PushBack_all length] in *.
    destruct (PushBack_Ok h this buf x Ho Hinv Hcap)
      as (this1 & h1 & buf1 & Hrun & Ho1 & Hsz1 & Hcap1 & Htake1 & _);
      [destruct Hinv; lia|].
    rewrite (bind_Ok _ _ _ _ _ Hrun).
    assert (Hinv1 : invariant this1 ∧ capacity_ this1 < 2 ^ w).
    { unfold invariant in *. rewrite Hsz1, Hcap1.
      pose proof pow_w_ge_2.
      destruct (Z.ltb_spec (size_ this) (capacity_ this)); lia. }
    destruct Hinv1 as [Hinv1 Hcap1'].
    destruct (IH h1 this1 buf1 Ho1 Hinv1 Hcap1' ltac:(lia))
      as (this2 & h2 & buf2 & Hrun2 & Ho2 & Hinv2 & Hsz2 & Htake2).
    exists this2, h2, buf2. split_and!; try done.
    + lia.
    + rewrite Htake2, Htake1, <- app_assoc. done.
Qed.

(** C4. On a vector that owns [capacity_] slots and satisfies
    [size_ <= capacity_], with the doubled capacity representable in
    [size_t] when a reallocation is due, [PushBack item] succeeds, puts
    [item] at index [old size], adds one to the size, keeps the elements
    before it in order, keeps the capacity when [size_ < capacity_] and makes
    it [max 1 (2 * capacity_)] when [size_ = capacity_].  Pushing the values
    of a list onto an empty vector and reading the indices in order yields
    the list. *)
Theorem PushBack_appends :
  (forall (h : heap) this buf item,
     owns h this buf -> invariant this -> capacity_ this < 2 ^ w ->
     (size_ this = capacity_ this -> 2 * capacity_ this < 2 ^ w) ->
     ∃ xs this' h',
       contents h this = Some xs
       ∧ PushBack item this h = Ok this' h'
       ∧ invariant this'
       ∧ size_ this' = size_ this + 1
       ∧ elem h' this' (size_ this) = Some item
       ∧ contents h' this' = Some (xs ++ [item])
       ∧ capacity_ this'
         = (if size_ this <? capacity_ this then capacity_ this
            else Z.max 1 (2 * capacity_ this)))
  ∧ (forall (h : heap) xs,
       2 * Z.of_nat (length xs) <= 2 ^ w ->
       ∃ this' h',
         PushBack_all xs SimpleVector_default h = Ok this' h'
         ∧ size_ this' = Z.of_nat (length xs)
         ∧ contents h' this' = Some xs
         ∧ forall (i : nat) x,
             xs !! i = Some x -> elem h' this' (Z.of_nat i) = Some x).
Proof using w_pos.
  split.
  - intros h this buf item Ho Hinv Hcap Hdbl.
    destruct (PushBack_Ok h this buf item Ho Hinv Hcap Hdbl)
      as (this' & h' & buf' & Hrun & Ho' & Hsz & Hcap' & Htake & _).
    assert (Hinv' : invariant this').
    { unfold invariant in *. rewrite Hsz, Hcap'.
      destruct (Z.ltb_spec (size_ this) (capacity_ this)); lia. }
    pose proof (owns_contents _ _ _ Ho' Hinv') as Hc'. rewrite Htake in Hc'.
    exists (take (Z.to_nat (size_ this)) buf), this', h'.
    split_and!; try done.
    + by apply owns_contents.
    + replace (size_ this) with (Z.of_nat (Z.to_nat (size_ this)))
        by (destruct Hinv; lia).
      apply (contents_elem _ _ _ _ _ Hc').
      rewrite lookup_app_r by (rewrite length_take; destruct Ho, Hinv; lia).
      rewrite length_take.
      replace (_ - _)%nat with 0%nat by (destruct Ho, Hinv; lia). done.
  - intros h xs Hbound.
    destruct (PushBack_all_Ok xs h SimpleVector_default [] (owns_default h))
      as (this' & h' & buf' & Hrun & Ho' & Hinv' & Hsz & Htake).
    + unfold invariant; simpl. lia.
    + simpl. pose proof pow_w_ge_2. lia.
    + simpl. lia.
    + simpl in Hsz, Htake.
      pose proof (owns_contents _ _ _ Ho' Hinv') as Hc'. rewrite Htake in Hc'.
      exists this', h'. split_and!; try done.
      intros i x Hx. by apply (contents_elem _ _ _ _ _ Hc').
Qed.

(** ** [Insert] and [Erase] *)

Lemma ptr_diff_Ok (h : heap) b (i k : Z) :
  ptr_diff (Ptr b i) (Ptr b k) h = Ok (i - k) h.
Proof. unfold ptr_diff; simpl. by rewrite bool_decide_eq_true_2. Qed.

Lemma Insert_Ok (h : heap) this buf (p : Z) value :
  owns h this buf -> invariant this -> capacity_ this < 2 ^ w ->
  (size_ this = capacity_ this -> 2 * capacity_ this < 2 ^ w) ->
  0 <= p <= size_ this ->
  ∃ this' h' buf',
    Insert (ptr_add (begin this) p) value this h
    = Ok (ptr_add (begin this') p, this') h'
    ∧ owns h' this' buf'
    ∧ size_ this' = size_ this + 1
    ∧ capacity_ this' = (if size_ this <? capacity_ this then capacity_ this
                         else Z.max 1 (2 * capacity_ this))
    ∧ take (Z.to_nat (size_ this')) buf'
      = take (Z.to_nat p) (take (Z.to_nat (size_ this)) buf)
        ++ value :: drop (Z.to_nat p) (take (Z.to_nat (size_ this)) buf).
Proof using w_pos.
  intros Ho [H0 Hle] Hcap Hdbl Hp. pose proof pow_w_ge_2 as Hw.
  destruct (owns_inv _ _ _ Ho) as (b & Hi & Hb & Hlen).
  destruct this as [items size capacity]; simpl in *. subst items.
  assert (Hxs : take (Z.to_nat p) (take (Z.to_nat size) buf)
                ++ value :: drop (Z.to_nat p) (take (Z.to_nat size) buf)
                = take (Z.to_nat p) buf
                  ++ value :: take (Z.to_nat (size - p)) (drop (Z.to_nat p) buf)).
  { rewrite take_take, take_drop_commute. do 4 f_equal; lia. }
  rewrite Hxs. clear Hxs.
  unfold Insert, begin, end_, ArrayPtr_Get, ArrayPtr_at; simpl.
  rewrite !ptr_add_Ptr, !Z.add_0_l.
  rewrite (bind_Ok _ _ _ _ _ (ptr_diff_Ok h b p 0)).
  rewrite Z.sub_0_r, (size_t_small p) by lia.
  destruct (Z.ltb_spec size capacity) as [Hlt|Hge].
  - (* room left *)
    destruct b as [l|]; simpl in Hb; [|subst buf; simpl in Hlen; lia].
    rewrite (bind_Ok _ _ _ _ _
      (std_copy_backward_Ok h l buf p size Hb ltac:(lia) ltac:(lia))).
    set (ys := take (Z.to_nat (size - p)) (drop (Z.to_nat p) buf)).
    assert (Hys : length ys = Z.to_nat (size - p)).
    { unfold ys. rewrite length_take, length_drop. lia. }
    set (b1 := splice buf (Z.to_nat (p + 1)) ys).
    assert (Hb1 : length b1 = length buf).
    { apply length_splice. lia. }
    rewrite (bind_Ok _ _ _ _ _
      (store_Ok _ l b1 p value (lookup_insert_eq _ _ _) ltac:(lia))).
    rewrite insert_insert_eq. unfold ret. rewrite size_t_small by lia.
    exists {| items_ := {| raw_ptr_ := Ptr (Some l) 0 |};
              size_ := size + 1; capacity_ := capacity |}.
    eexists _, (<[Z.to_nat p := value]> b1).
    split; [reflexivity|]. simpl. split_and!.
    + split; simpl.
      * unfold block; simpl. by rewrite lookup_insert_eq.
      * rewrite length_insert. lia.
    + done.
    + done.
    + unfold b1, splice.
      replace (Z.to_nat (p + 1)) with (S (Z.to_nat p)) by lia.
      rewrite insert_app_l by (rewrite length_take; lia).
      destruct (lookup_lt_is_Some_2 buf (Z.to_nat p)) as [y Hy]; [lia|].
      rewrite (take_S_r _ _ y Hy).
      rewrite insert_app_r_alt by (rewrite length_take; lia).
      rewrite length_take. replace (_ - _)%nat with 0%nat by lia.
      cbn [insert list_insert]. rewrite <- !app_assoc. cbn [app].
      rewrite app_comm_cons, app_assoc.
      rewrite take_app_length'; [done|].
      rewrite length_app, length_take. cbn [length]. lia.
  - (* reallocation *)
    assert (size = capacity) as -> by lia. specialize (Hdbl eq_refl).
    rewrite size_t_1, (size_t_small (capacity * 2)) by lia.
    set (new_capacity := Z.max 1 (capacity * 2)).
    assert (Hnew : capacity < new_capacity) by lia.
    rewrite (bind_Ok _ _ _ _ _ (ArrayPtr_sized_Ok h new_capacity ltac:(lia))).
    set (l' := fresh (dom h)).
    set (bd := indet l' <$> seq 0 (Z.to_nat new_capacity)).
    assert (Hbd : Z.of_nat (length bd) = new_capacity)
      by (apply length_new; lia).
    pose proof (refers_fresh _ _ _ Hb) as Hfresh. fold l' in Hfresh.
    assert (Hsrc : forall bd', refers (<[l' := bd']> h) b buf).
    { intros bd'. apply refers_insert_ne; [done | apply fresh_None]. }
    simpl.
    rewrite (bind_Ok _ _ _ _ _
      (std_copy_Ok (<[l' := bd]> h) b buf 0 p 0 l' bd (Hsrc _)
         ltac:(lia) ltac:(lia) (lookup_insert_eq _ _ _)
         ltac:(lia) ltac:(lia) (or_introl Hfresh))).
    rewrite insert_insert_eq, Z.sub_0_r, drop_0.
    change (Z.to_nat 0) with 0%nat.
    set (b1 := splice bd 0 (take (Z.to_nat p) buf)).
    assert (Hb1 : length b1 = length bd).
    { apply length_splice. rewrite length_take. lia. }
    rewrite (bind_Ok _ _ _ _ _
      (store_Ok (<[l' := b1]> h) l' b1 p value
         (lookup_insert_eq _ _ _) ltac:(lia))).
    rewrite insert_insert_eq.
    set (b2 := <[Z.to_nat p := value]> b1).
    assert (Hb2 : length b2 = length bd).
    { unfold b2. by rewrite length_insert. }
    rewrite (bind_Ok _ _ _ _ _
      (std_copy_Ok (<[l' := b2]> h) b buf p capacity (p + 1) l' b2 (Hsrc _)
         ltac:(lia) ltac:(lia) (lookup_insert_eq _ _ _)
         ltac:(lia) ltac:(lia) (or_introl Hfresh))).
    rewrite insert_insert_eq.
    set (ys := take (Z.to_nat (capacity - p)) (drop (Z.to_nat p) buf)).
    assert (Hys : length ys = Z.to_nat (capacity - p)).
    { unfold ys. rewrite length_take, length_drop. lia. }
    set (b3 := splice b2 (Z.to_nat (p + 1)) ys).
    rewrite (bind_Ok _ _ _ _ _ (ArrayPtr_dtor_Ok _ b buf (Hsrc b3))).
    unfold ret. rewrite size_t_small by lia.
    exists {| items_ := {| raw_ptr_ := Ptr (Some l') 0 |};
              size_ := capacity + 1; capacity_ := new_capacity |}.
    eexists _, b3. split; [reflexivity|]. simpl. split_and!.
    + split; simpl.
      * unfold block; simpl.
        by rewrite (released_lookup_ne _ b l' Hfresh), lookup_insert_eq.
      * unfold b3. rewrite length_splice; lia.
    + done.
    + destruct (Z.ltb_spec capacity capacity); [lia|].
      unfold new_capacity. f_equal. lia.
    + unfold b3, b2, b1, splice. rewrite take_0. cbn [app].
      replace (Z.to_nat (p + 1)) with (S (Z.to_nat p)) by lia.
      assert (Hlp : length (take (Z.to_nat p) buf) = Z.to_nat p).
      { rewrite length_take. lia. }
      rewrite (take_S_r _ _ value).
      2:{ apply list_lookup_insert_eq. rewrite length_app, length_drop. lia. }
      rewrite take_insert_ge by lia.
      rewrite (take_app_length' _ _ (Z.to_nat p)) by done.
      rewrite app_assoc.
      rewrite take_app_length'.
      * rewrite <- app_assoc. done.
      * rewrite !length_app, Hlp. cbn [length]. lia.
Qed.

Lemma Erase_Ok (h : heap) this buf (p : Z) :
  owns h this buf -> invariant this -> capacity_ this < 2 ^ w ->
  0 <= p < size_ this ->
  ∃ this' h' buf',
    Erase (ptr_add (begin this) p) this h
    = Ok (ptr_add (begin this') p, this') h'
    ∧ owns h' this' buf'
    ∧ size_ this' = size_ this - 1
    ∧ capacity_ this' = capacity_ this
    ∧ take (Z.to_nat (size_ this')) buf'
      = take (Z.to_nat p) (take (Z.to_nat (size_ this)) buf)
        ++ drop (S (Z.to_nat p)) (take (Z.to_nat (size_ this)) buf).
Proof using w_pos.
  intros Ho [H0 Hle] Hcap Hp.
  destruct (owns_inv _ _ _ Ho) as (b & Hi & Hb & Hlen).
  destruct this as [items size capacity]; simpl in *. subst items.
  assert (Hxs : take (Z.to_nat p) (take (Z.to_nat size) buf)
                ++ drop (S (Z.to_nat p)) (take (Z.to_nat size) buf)
                = take (Z.to_nat p) buf
                  ++ take (Z.to_nat (size - (p + 1)))
                       (drop (Z.to_nat (p + 1)) buf)).
  { rewrite take_take, take_drop_commute. do 3 f_equal; lia. }
  rewrite Hxs. clear Hxs.
  unfold Erase, begin, end_, ArrayPtr_Get, ArrayPtr_at; simpl.
  rewrite !ptr_add_Ptr, !Z.add_0_l.
  rewrite (bind_Ok _ _ _ _ _ (ptr_diff_Ok h b p 0)).
  rewrite Z.sub_0_r, (size_t_small p), (size_t_small (p + 1)) by lia.
  destruct b as [l|]; simpl in Hb; [|subst buf; simpl in Hlen; lia].
  assert (Hdir : Some l ≠ Some l ∨ p <= p + 1) by (right; lia).
  rewrite (bind_Ok _ _ _ _ _
    (std_copy_Ok h (Some l) buf (p + 1) size p l buf Hb
       ltac:(lia) ltac:(lia) Hb ltac:(lia) ltac:(lia) Hdir)).
  unfold ret. rewrite size_t_small by lia.
  set (ys := take (Z.to_nat (size - (p + 1))) (drop (Z.to_nat (p + 1)) buf)).
  assert (Hys : length ys = Z.to_nat (size - (p + 1))).
  { unfold ys. rewrite length_take, length_drop. lia. }
  exists {| items_ := {| raw_ptr_ := Ptr (Some l) 0 |};
            size_ := size - 1; capacity_ := capacity |}.
  eexists _, (splice buf (Z.to_nat p) ys).
  split; [reflexivity|]. simpl. split_and!.
  - split; simpl.
    + unfold block; simpl. by rewrite lookup_insert_eq.
    + rewrite length_splice; lia.
  - done.
  - done.
  - unfold splice. rewrite app_assoc.
    rewrite take_app_length'; [done|].
    rewrite length_app, length_take. lia.
Qed.

(** C5. On a vector that owns [capacity_] slots and satisfies
    [size_ <= capacity_], for a position [0 <= p <= size_], [Insert] of a
    value at [begin() + p] followed by [Erase] at that position gives back
    the original sequence and the original size, whether the insertion
    fitted in the capacity or reallocated (the doubled capacity then being
    representable in [size_t]). *)
Theorem Insert_Erase_roundtrip (h : heap) this buf (p : Z) value :
  owns h this buf -> invariant this -> capacity_ this < 2 ^ w ->
  (size_ this = capacity_ this -> 2 * capacity_ this < 2 ^ w) ->
  0 <= p <= size_ this ->
  ∃ xs this1 h1 this2 h2,
    contents h this = Some xs
    ∧ Insert (ptr_add (begin this) p) value this h
      = Ok (ptr_add (begin this1) p, this1) h1
    ∧ contents h1 this1
      = Some (take (Z.to_nat p) xs ++ value :: drop (Z.to_nat p) xs)
    ∧ capacity_ this1
      = (if size_ this <? capacity_ this then capacity_ this
         else Z.max 1 (2 * capacity_ this))
    ∧ Erase (ptr_add (begin this1) p) this1 h1
      = Ok (ptr_add (begin this2) p, this2) h2
    ∧ contents h2 this2 = Some xs
    ∧ size_ this2 = size_ this.
Proof using w_pos.
  intros Ho Hinv Hcap Hdbl Hp. pose proof pow_w_ge_2 as Hw.
  destruct (Insert_Ok h this buf p value Ho Hinv Hcap Hdbl Hp)
    as (this1 & h1 & buf1 & Hins & Ho1 & Hsz1 & Hcap1 & Htake1).
  assert (Hinv1 : invariant this1 ∧ capacity_ this1 < 2 ^ w).
  { unfold invariant in *. rewrite Hsz1, Hcap1.
    destruct (Z.ltb_spec (size_ this) (capacity_ this)); lia. }
  destruct Hinv1 as [Hinv1 Hcap1'].
  destruct (Erase_Ok h1 this1 buf1 p Ho1 Hinv1 Hcap1' ltac:(lia))
    as (this2 & h2 & buf2 & Hers & Ho2 & Hsz2 & Hcap2 & Htake2).
  assert (Hinv2 : invariant this2).
  { unfold invariant in *. rewrite Hsz2, Hcap2. lia. }
  set (xs := take (Z.to_nat (size_ this)) buf) in *.
  assert (Hxs : length xs = Z.to_nat (size_ this)).
  { unfold xs. rewrite length_take. destruct Ho, Hinv. lia. }
  exists xs, this1, h1, this2, h2. split_and!; try done.
  - by apply owns_contents.
  - rewrite <- Htake1. by apply owns_contents.
  - rewrite (owns_contents _ _ _ Ho2 Hinv2), Htake2, Htake1. f_equal.
    assert (Hl : length (take (Z.to_nat p) xs) = Z.to_nat p).
    { rewrite length_take. lia. }
    rewrite take_app_length' by done.
    rewrite drop_app_ge by lia. rewrite Hl.
    replace (S (Z.to_nat p) - Z.to_nat p)%nat with 1%nat by lia.
    cbn [drop]. by rewrite drop_0, take_drop.
  - lia.
Qed.

(** ** [At] *)

(** C7. [At(index)] throws [out_of_range] with the message
    ["index >= size"] exactly when [index >= size_], and then the store is
    as it was (the object is not written at all); for [index < size_] it
    returns the reference [operator[]] returns, through which element
    [index] of a vector owning its slots is read. *)
Theorem At_checks_bounds (h : heap) this (index : Z) :
  ((∃ e h', At index this h = Throw e h') <-> size_ this <= index)
  ∧ (size_ this <= index ->
     At index this h = Throw (out_of_range "index >= size") h)
  ∧ (index < size_ this ->
     At index this h = Ok (operator_index index this) h)
  ∧ (forall buf,
       owns h this buf -> invariant this -> 0 <= index < size_ this ->
       ∃ x, buf !! Z.to_nat index = Some x
            ∧ (let* r := At index this in load r) h = Ok x h
            ∧ load (operator_index index this) h = Ok x h).
Proof.
  unfold At, operator_index.
  destruct (Z.leb_spec (size_ this) index) as [Hge|Hlt].
  - split_and!.
    + split; [done|]. intros _. by eexists _, _.
    + done.
    + lia.
    + intros; lia.
  - split_and!.
    + split; [|lia]. by intros (e & h' & He).
    + lia.
    + done.
    + intros buf Ho Hinv Hi.
      destruct (lookup_lt_is_Some_2 buf (Z.to_nat index)) as [x Hx].
      { destruct Ho, Hinv. lia. }
      pose proof (owns_readable _ _ _ Ho (Z.to_nat index) x) as Hr.
      rewrite Z2Nat.id in Hr by lia.
      rewrite lookup_take_lt in Hr by lia. specialize (Hr Hx).
      exists x. split_and!; [done | | done].
      unfold bind, ret. exact Hr.
Qed.

(** ** [PopBack] *)

Lemma PopBack_nonempty this :
  invariant this -> 0 < size_ this -> capacity_ this < 2 ^ w ->
  size_ (PopBack this) = size_ this - 1 ∧ invariant (PopBack this).
Proof using w_pos.
  intros [H0 Hle] Hpos Hcap. unfold PopBack, invariant; simpl.
  rewrite size_t_small by lia. lia.
Qed.

(** C10. [PopBack] on a vector of size 0 makes the size [2^w - 1]: the
    decrement wraps.  The capacity and the buffer stay as they were, so the
    size exceeds the capacity, for a capacity below [2^w - 1]. *)
Theorem PopBack_empty_wraps this :
  size_ this = 0 -> capacity_ this < 2 ^ w - 1 ->
  size_ (PopBack this) = 2 ^ w - 1
  ∧ capacity_ (PopBack this) < size_ (PopBack this)
  ∧ ¬ invariant (PopBack this)
  ∧ capacity_ (PopBack this) = capacity_ this
  ∧ items_ (PopBack this) = items_ this
  ∧ (forall h : heap, block h (items_ (PopBack this)) = block h (items_ this)).
Proof using w_pos.
  intros Hsz Hcap. pose proof pow_w_ge_2 as Hw.
  assert (Hwrap : size_ (PopBack this) = 2 ^ w - 1).
  { unfold PopBack, size_t; simpl. rewrite Hsz.
    replace (0 - 1) with (2 ^ w - 1 + (-1) * 2 ^ w) by lia.
    rewrite Z.mod_add by lia. apply Z.mod_small. lia. }
  unfold invariant. rewrite Hwrap. simpl. split_and!; try done; lia.
Qed.

(** ** [Reserve] *)

Lemma owns_elem (h : heap) this buf (i : Z) x :
  owns h this buf -> 0 <= i -> buf !! Z.to_nat i = Some x ->
  elem h this i = Some x.
Proof.
  intros (b & Hi & Hb & _)%owns_inv H0 Hx.
  unfold elem, operator_index, ArrayPtr_at. rewrite Hi; simpl.
  rewrite ptr_add_Ptr, Z.add_0_l.
  destruct b as [l|]; simpl in Hb.
  - by rewrite (load_Ok h l buf i x Hb H0 Hx).
  - subst buf. by rewrite lookup_nil in Hx.
Qed.

Lemma Reserve_grows (h : heap) this buf (new_capacity : Z) :
  owns h this buf -> invariant this -> capacity_ this < new_capacity ->
  ∃ this' h' buf',
    Reserve new_capacity this h = Ok this' h'
    ∧ owns h' this' buf'
    ∧ capacity_ this' = new_capacity
    ∧ size_ this' = size_ this
    ∧ buf' = take (Z.to_nat (size_ this)) buf
             ++ replicate (Z.to_nat (new_capacity - size_ this)) T_default
    ∧ (forall l, base (raw_ptr_ (items_ this)) ≠ Some l ->
                 is_Some (h !! l) -> h' !! l = h !! l).
Proof.
  intros Ho [H0 Hle] Hgrow.
  destruct (owns_inv _ _ _ Ho) as (b & Hi & Hb & Hlen).
  destruct this as [items size capacity]; simpl in *. subst items.
  unfold Reserve; simpl.
  destruct (Z.ltb_spec capacity new_capacity); [|lia].
  rewrite (bind_Ok _ _ _ _ _ (ArrayPtr_sized_Ok h new_capacity ltac:(lia))).
  set (l' := fresh (dom h)).
  set (bd := indet l' <$> seq 0 (Z.to_nat new_capacity)).
  assert (Hbd : Z.of_nat (length bd) = new_capacity)
    by (apply length_new; lia).
  pose proof (refers_fresh _ _ _ Hb) as Hfresh. fold l' in Hfresh.
  assert (Hsrc : forall bd', refers (<[l' := bd']> h) b buf).
  { intros bd'. apply refers_insert_ne; [done | apply fresh_None]. }
  unfold begin, end_, ArrayPtr_Get; simpl.
  rewrite !ptr_add_Ptr, !Z.add_0_l.
  rewrite (bind_Ok _ _ _ _ _
    (std_fill_Ok (<[l' := bd]> h) l' bd new_capacity T_default
       (lookup_insert_eq _ _ _) ltac:(lia))).
  rewrite insert_insert_eq.
  rewrite splice_0_all by (rewrite length_replicate; lia).
  set (b1 := replicate (Z.to_nat new_capacity) T_default).
  assert (Hb1 : length b1 = Z.to_nat new_capacity)
    by apply length_replicate.
  rewrite (bind_Ok _ _ _ _ _
    (std_copy_Ok (<[l' := b1]> h) b buf 0 size 0 l' b1 (Hsrc _)
       ltac:(lia) ltac:(lia) (lookup_insert_eq _ _ _)
       ltac:(lia) ltac:(lia) (or_introl Hfresh))).
  rewrite insert_insert_eq, Z.sub_0_r, drop_0.
  change (Z.to_nat 0) with 0%nat.
  set (b2 := splice b1 0 (take (Z.to_nat size) buf)).
  rewrite (bind_Ok _ _ _ _ _ (ArrayPtr_dtor_Ok _ b buf (Hsrc b2))).
  unfold ret.
  assert (Hb2 : b2 = take (Z.to_nat size) buf
                     ++ replicate (Z.to_nat (new_capacity - size)) T_default).
  { unfold b2, splice, b1. rewrite take_0, drop_replicate. cbn [app].
    do 2 f_equal. rewrite length_take. lia. }
  eexists _, _, b2. split; [reflexivity|]. simpl. split_and!; try done.
  - split; simpl.
    + unfold block; simpl.
      by rewrite (released_lookup_ne _ b l' Hfresh), lookup_insert_eq.
    + rewrite Hb2, length_app, length_take, length_replicate. lia.
  - intros l Hne [x Hx].
    rewrite (released_lookup_ne _ b l) by done.
    apply lookup_insert_ne. intros Heq. rewrite <- Heq in Hx.
    unfold l' in Hx. by rewrite fresh_None in Hx.
Qed.

(** X22. On a vector that owns [capacity_] slots and satisfies
    [size_ <= capacity_] (what every constructor and operation except
    copying establishes): [Reserve(n)] with [n <= capacity_] returns the
    object and the store as they were; with [n > capacity_] the capacity
    becomes [n], the size and the elements at the indices below it are
    unchanged, the slots from the size on hold [Type()], and no array of
    another owner is touched.  The capacity never shrinks. *)
Theorem Reserve_frame (h : heap) this buf (n : Z) :
  owns h this buf -> invariant this ->
  (n <= capacity_ this -> Reserve n this h = Ok this h)
  ∧ (capacity_ this < n ->
     ∃ this' h',
       Reserve n this h = Ok this' h'
       ∧ capacity_ this' = n
       ∧ size_ this' = size_ this
       ∧ invariant this'
       ∧ contents h' this' = contents h this
       ∧ (forall i, size_ this <= i < n ->
                    elem h' this' i = Some T_default)
       ∧ (forall l, base (raw_ptr_ (items_ this)) ≠ Some l ->
                    is_Some (h !! l) -> h' !! l = h !! l))
  ∧ ∃ this' h',
      Reserve n this h = Ok this' h' ∧ capacity_ this <= capacity_ this'.
Proof.
  intros Ho Hinv.
  assert (Hsmall : n <= capacity_ this -> Reserve n this h = Ok this h).
  { intros Hn. unfold Reserve.
    destruct (Z.ltb_spec (capacity_ this) n); [lia | done]. }
  assert (Hbig : capacity_ this < n ->
     ∃ this' h',
       Reserve n this h = Ok this' h'
       ∧ capacity_ this' = n
       ∧ size_ this' = size_ this
       ∧ invariant this'
       ∧ contents h' this' = contents h this
       ∧ (forall i, size_ this <= i < n ->
                    elem h' this' i = Some T_default)
       ∧ (forall l, base (raw_ptr_ (items_ this)) ≠ Some l ->
                    is_Some (h !! l) -> h' !! l = h !! l)).
  { intros Hn.
    destruct (Reserve_grows h this buf n Ho Hinv Hn)
      as (this' & h' & buf' & Hrun & Ho' & Hcap & Hsz & Hbuf & Hframe).
    assert (Hinv' : invariant this').
    { unfold invariant in *. rewrite Hsz, Hcap. lia. }
    assert (Hxs : length (take (Z.to_nat (size_ this)) buf)
                  = Z.to_nat (size_ this)).
    { rewrite length_take. destruct Ho, Hinv. lia. }
    exists this', h'. split_and!; try done.
    - rewrite (owns_contents _ _ _ Ho' Hinv'), (owns_contents _ _ _ Ho Hinv).
      rewrite Hsz, Hbuf. f_equal. by apply take_app_length'.
    - intros i Hi. apply (owns_elem _ _ _ _ _ Ho'); [destruct Hinv; lia|].
      rewrite Hbuf, lookup_app_r by lia. rewrite Hxs.
      apply lookup_replicate_2. destruct Hinv. lia. }
  split_and!; try done.
  destruct (Z.le_gt_cases n (capacity_ this)) as [Hn|Hn].
  - exists this, h. split; [auto | lia].
  - destruct (Hbig Hn) as (this' & h' & Hrun & Hcap & _).
    exists this', h'. split; [done | lia].
Qed.

(** ** [Resize] *)

Lemma Resize_loop_Ok n : forall l (i : nat) (h : heap) bd size capacity,
  h !! l = Some bd -> (i + n <= length bd)%nat ->
  Z.of_nat (i + n) < 2 ^ w ->
  Resize_loop n (Z.of_nat i)
    {| items_ := {| raw_ptr_ := Ptr (Some l) 0 |};
       size_ := size; capacity_ := capacity |} h
  = Ok tt (<[l := splice bd i (replicate n T_default)]> h).
Proof using w_pos.
  induction n as [|n IH]; intros l i h bd size capacity Hl Hi Hw.
  - simpl. unfold ret. by rewrite splice_nil, insert_id.
  - cbn [Resize_loop]. unfold ArrayPtr_at; simpl.
    rewrite (bind_Ok _ _ _ _ _ (store_Ok h l bd (Z.of_nat i) T_default Hl
               ltac:(lia))).
    rewrite Nat2Z.id, size_t_small by lia.
    replace (Z.of_nat i + 1) with (Z.of_nat (S i)) by lia.
    rewrite (IH l (S i) _ _ size capacity (lookup_insert_eq _ _ _))
      by (rewrite ?length_insert; lia).
    rewrite insert_insert_eq. cbn [replicate].
    by rewrite splice_cons by lia.
Qed.

(** What [Resize] does on a vector that owns its slots, branch by branch:
    the size becomes [new_size] in the first and the last branch and stays
    in the middle one; the capacity changes in the last branch only; the
    elements below both sizes stay; the slots from the old size up to
    [new_size] hold [Type()]. *)
Lemma Resize_Ok (h : heap) this buf (new_size : Z) :
  owns h this buf -> invariant this -> capacity_ this < 2 ^ w ->
  0 <= new_size ->
  ∃ this' h' buf',
    Resize new_size this h = Ok this' h'
    ∧ owns h' this' buf'
    ∧ size_ this'
      = (if new_size <=? size_ this then new_size
         else if new_size <=? capacity_ this then size_ this
         else new_size)
    ∧ capacity_ this'
      = (if new_size <=? capacity_ this then capacity_ this
         else Z.max (size_t (capacity_ this * 2)) new_size)
    ∧ take (Z.to_nat (Z.min (size_ this) new_size)) buf'
      = take (Z.to_nat (Z.min (size_ this) new_size)) buf
    ∧ (forall i, size_ this <= i < new_size ->
                 buf' !! Z.to_nat i = Some T_default).
Proof using w_pos.
  intros Ho [H0 Hle] Hcap Hn. pose proof pow_w_ge_2 as Hw.
  destruct (owns_inv _ _ _ Ho) as (b & Hi & Hb & Hlen).
  destruct this as [items size capacity]; simpl in *. subst items.
  unfold Resize; simpl.
  destruct (Z.leb_spec new_size size) as [Hshrink|Hmore].
  - (* shrink *)
    exists {| items_ := {| raw_ptr_ := Ptr b 0 |};
              size_ := new_size; capacity_ := capacity |}, h, buf.
    destruct (Z.leb_spec new_size capacity); [|lia].
    split_and!; try done. intros i ?. lia.
  - destruct (Z.leb_spec new_size capacity) as [Hfits|Hgrow].
    + (* within the capacity *)
      destruct b as [l|]; simpl in Hb; [|subst buf; simpl in Hlen; lia].
      pose proof (Resize_loop_Ok (Z.to_nat (new_size - size)) l
                    (Z.to_nat size) h buf size capacity Hb
                    ltac:(lia) ltac:(lia)) as Hloop.
      rewrite Z2Nat.id in Hloop by lia.
      rewrite (bind_Ok _ _ _ _ _ Hloop). unfold ret.
      set (n := Z.to_nat (new_size - size)).
      set (b1 := splice buf (Z.to_nat size) (replicate n T_default)).
      eexists _, _, b1. split; [reflexivity|]. simpl. split_and!; try done.
      * split; simpl.
        -- unfold block; simpl. by rewrite lookup_insert_eq.
        -- unfold b1. rewrite length_splice; [done|].
           rewrite length_replicate. lia.
      * unfold b1, splice. rewrite take_app_le by (rewrite length_take; lia).
        by rewrite take_take, Nat.min_l by lia.
      * intros i Hi. unfold b1, splice.
        rewrite lookup_app_r by (rewrite length_take; lia).
        rewrite length_take, lookup_app_l by (rewrite length_replicate; lia).
        apply lookup_replicate_2. lia.
    + (* reallocation *)
      set (new_capacity := Z.max (size_t (capacity * 2)) new_size).
      assert (Hnew : new_size <= new_capacity) by lia.
      rewrite (bind_Ok _ _ _ _ _
        (ArrayPtr_sized_Ok h new_capacity ltac:(lia))).
      set (l' := fresh (dom h)).
      set (bd := indet l' <$> seq 0 (Z.to_nat new_capacity)).
      assert (Hbd : Z.of_nat (length bd) = new_capacity)
        by (apply length_new; lia).
      pose proof (refers_fresh _ _ _ Hb) as Hfresh. fold l' in Hfresh.
      assert (Hsrc : forall bd', refers (<[l' := bd']> h) b buf).
      { intros bd'. apply refers_insert_ne; [done | apply fresh_None]. }
      unfold end_, begin, ArrayPtr_Get, ptr_add; simpl.
      rewrite (bind_Ok _ _ _ _ _
        (std_fill_Ok (<[l' := bd]> h) l' bd new_capacity T_default
           (lookup_insert_eq _ _ _) ltac:(lia))).
      rewrite insert_insert_eq.
      rewrite splice_0_all by (rewrite length_replicate; lia).
      set (b1 := replicate (Z.to_nat new_capacity) T_default).
      assert (Hb1 : length b1 = Z.to_nat new_capacity)
        by apply length_replicate.
      rewrite (bind_Ok _ _ _ _ _
        (std_copy_Ok (<[l' := b1]> h) b buf 0 size 0 l' b1 (Hsrc _)
           ltac:(lia) ltac:(lia) (lookup_insert_eq _ _ _)
           ltac:(lia) ltac:(lia) (or_introl Hfresh))).
      rewrite insert_insert_eq, Z.sub_0_r, drop_0.
      change (Z.to_nat 0) with 0%nat.
      set (b2 := splice b1 0 (take (Z.to_nat size) buf)).
      rewrite (bind_Ok _ _ _ _ _ (ArrayPtr_dtor_Ok _ b buf (Hsrc b2))).
      unfold ret.
      assert (Hb2 : b2 = take (Z.to_nat size) buf
                         ++ replicate (Z.to_nat (new_capacity - size))
                              T_default).
      { unfold b2, splice, b1. rewrite take_0, drop_replicate. cbn [app].
        do 2 f_equal. rewrite length_take. lia. }
      eexists _, _, b2. split; [reflexivity|]. simpl. split_and!; try done.
      * split; simpl.
        -- unfold block; simpl.
           by rewrite (released_lookup_ne _ b l' Hfresh), lookup_insert_eq.
        -- rewrite Hb2, length_app, length_take, length_replicate. lia.
      * rewrite Hb2, take_app_le by (rewrite length_take; lia).
        by rewrite take_take, Nat.min_l by lia.
      * intros i Hi. rewrite Hb2.
        rewrite lookup_app_r by (rewrite length_take; lia).
        apply lookup_replicate_2. rewrite length_take. lia.
Qed.

(** ** Moves *)

Lemma SimpleVector_move_eq (a : SimpleVector) :
  SimpleVector_move a = (a, SimpleVector_default).
Proof. by destruct a as [[p] size capacity]. Qed.

Lemma swap_eq (a b : SimpleVector) : swap a b = (b, a).
Proof. by destruct a as [[p] sa ca], b as [[q] sb cb]. Qed.

Lemma SimpleVector_dtor_Ok (h : heap) this buf :
  block h (items_ this) = Some buf ->
  SimpleVector_dtor this h = Ok tt (released h (items_ this)).
Proof.
  intros (b & Hi & Hb)%block_inv. unfold SimpleVector_dtor. rewrite Hi.
  by apply (ArrayPtr_dtor_Ok h b buf).
Qed.


(** ** Copy construction *)

(** What the copy constructor does on a vector that owns its slots: the new
    object has the source's size and elements in an array of its own of
    [capacity_ other] slots, nothing allocated before is touched, and its
    [capacity_] is 0. *)
Lemma SimpleVector_copy_Ok (h : heap) other buf :
  owns h other buf -> invariant other ->
  ∃ this h' buf',
    SimpleVector_copy other h = Ok this h'
    ∧ size_ this = size_ other
    ∧ capacity_ this = 0
    ∧ block h' (items_ this) = Some buf'
    ∧ Z.of_nat (length buf') = capacity_ other
    ∧ contents h' this = contents h other
    ∧ (forall l, is_Some (h !! l) ->
         h' !! l = h !! l ∧ base (raw_ptr_ (items_ this)) ≠ Some l).
Proof.
  intros Ho Hinv. pose proof (owns_contents _ _ _ Ho Hinv) as Hc.
  destruct Hinv as [H0 Hle].
  destruct (owns_inv _ _ _ Ho) as (b & Hi & Hb & Hlen).
  destruct other as [items size capacity]; simpl in *. subst items.
  rewrite Hc. unfold SimpleVector_copy; simpl.
  unfold end_, begin, ArrayPtr_Get, ptr_add; simpl.
  destruct (Z.eq_dec capacity 0) as [->|Hpos].
  - assert (size = 0) as -> by lia.
    assert (buf = []) as -> by (destruct buf; [done | simpl in Hlen; lia]).
    rewrite (bind_Ok _ _ _ _ _ (ArrayPtr_sized_0 h)).
    unfold std_copy, bind, distance, ret; simpl.
    rewrite bool_decide_eq_true_2 by done. simpl.
    eexists _, h, []. split; [reflexivity|]. simpl. split_and!; try done.
  - rewrite (bind_Ok _ _ _ _ _ (ArrayPtr_sized_Ok h capacity ltac:(lia))).
    set (l' := fresh (dom h)).
    set (bd := indet l' <$> seq 0 (Z.to_nat capacity)).
    assert (Hbd : Z.of_nat (length bd) = capacity)
      by (apply length_new; lia).
    pose proof (refers_fresh _ _ _ Hb) as Hfresh. fold l' in Hfresh.
    simpl.
    rewrite (bind_Ok _ _ _ _ _
      (std_copy_Ok (<[l' := bd]> h) b buf 0 size 0 l' bd
         (refers_insert_ne _ _ _ _ _ Hb (fresh_None h))
         ltac:(lia) ltac:(lia) (lookup_insert_eq _ _ _)
         ltac:(lia) ltac:(lia) (or_introl Hfresh))).
    rewrite insert_insert_eq, Z.sub_0_r, drop_0.
    change (Z.to_nat 0) with 0%nat. unfold ret.
    set (b1 := splice bd 0 (take (Z.to_nat size) buf)).
    assert (Hb1 : length b1 = length bd).
    { apply length_splice. rewrite length_take. lia. }
    eexists _, _, b1. split; [reflexivity|]. simpl.
    assert (Hblk : refers (<[l' := b1]> h) (Some l') b1)
      by apply lookup_insert_eq.
    split_and!.
    + done.
    + done.
    + by apply block_Ptr.
    + lia.
    + apply readable_contents; simpl.
      * replace (take (Z.to_nat size) buf)
          with (take (Z.to_nat size) b1); [by apply readable_block|].
        unfold b1, splice. rewrite take_0. cbn [app].
        apply take_app_length'. rewrite length_take. lia.
      * rewrite length_take. lia.
    + intros l [x Hx].
      assert (l' ≠ l).
      { intros Heq. rewrite <- Heq in Hx. unfold l' in Hx.
        by rewrite fresh_None in Hx. }
      split; [by apply lookup_insert_ne | congruence].
Qed.

(** The guard [this != &rhs]: self-assignment returns at once. *)
Lemma assign_copy_self (objs : objects) (h : heap) this :
  assign_copy this this objs h = Ok objs h.
Proof.
  unfold assign_copy. by rewrite bool_decide_eq_false_2 by (by intros ?).
Qed.

(** ** Comparisons *)

Lemma equal_loop_Ok xs : forall ys p q (h : heap),
  readable h p xs -> readable h q ys -> length xs = length ys ->
  ∃ r, equal_loop (length xs) p q h = Ok r h
       ∧ (r = true <-> pairwise_equal xs ys).
Proof.
  induction xs as [|x xs IH]; intros ys p q h Hp Hq Hlen.
  - destruct ys; [|done]. exists true. split; [done|].
    split; [intros _; constructor | done].
  - destruct ys as [|y ys]; [done|]. injection Hlen as Hlen.
    apply readable_cons_inv in Hp as [Hx Hp].
    apply readable_cons_inv in Hq as [Hy Hq].
    cbn [equal_loop length].
    rewrite (bind_Ok _ _ _ _ _ Hx), (bind_Ok _ _ _ _ _ Hy).
    destruct (elem_eq x y) eqn:Hxy.
    + destruct (IH ys _ _ h Hp Hq Hlen) as (r & Hrun & Hr).
      exists r. split; [done|]. rewrite Hr. unfold pairwise_equal.
      rewrite Forall2_cons. split; [by intros ? | by intros [_ ?]].
    + exists false. split; [done|]. split; [done|].
      intros [Hxy' _]%Forall2_cons. by rewrite Hxy in Hxy'.
Qed.

Lemma lexicographical_loop_Ok xs : forall ys p q (h : heap),
  readable h p xs -> readable h q ys ->
  ∃ r, lexicographical_loop (length xs) (length ys) p q h = Ok r h
       ∧ (r = true <-> lex_less xs ys).
Proof.
  induction xs as [|x xs IH]; intros ys p q h Hp Hq.
  - destruct ys as [|y ys].
    + exists false. split; [done|]. split; [done | inversion 1].
    + exists true. split; [done|]. split; [intros _; constructor | done].
  - destruct ys as [|y ys].
    + exists false. split; [done|]. split; [done | inversion 1].
    + apply readable_cons_inv in Hp as [Hx Hp].
      apply readable_cons_inv in Hq as [Hy Hq].
      cbn [lexicographical_loop length].
      rewrite (bind_Ok _ _ _ _ _ Hx), (bind_Ok _ _ _ _ _ Hy).
      destruct (elem_lt x y) eqn:Hxy.
      * exists true. split; [done|]. split; [|done].
        intros _. by apply lex_less_head.
      * destruct (elem_lt y x) eqn:Hyx.
        -- exists false. split; [done|]. split; [done|].
           inversion 1; congruence.
        -- destruct (IH ys _ _ h Hp Hq) as (r & Hrun & Hr).
           exists r. split; [done|]. rewrite Hr. split.
           ++ by apply lex_less_tail.
           ++ inversion 1; [congruence | done].
Qed.

Lemma distance_vector (h : heap) this :
  0 <= size_ this ->
  distance (begin this) (end_ this) h = Ok (Z.to_nat (size_ this)) h.
Proof.
  intros H0. unfold end_, begin, ArrayPtr_Get.
  destruct (raw_ptr_ (items_ this)) as [b o]. rewrite ptr_add_Ptr.
  rewrite distance_Ok by lia. do 2 f_equal. lia.
Qed.

Lemma length_contents (h : heap) this buf :
  owns h this buf -> invariant this ->
  length (take (Z.to_nat (size_ this)) buf) = Z.to_nat (size_ this).
Proof. intros [_ Hlen] [H0 Hle]. rewrite length_take. lia. Qed.

Lemma operator_eq_Ok (h : heap) a b bufa bufb :
  owns h a bufa -> owns h b bufb -> invariant a -> invariant b ->
  ∃ r, operator_eq a b h = Ok r h
       ∧ (r = true <->
          size_ a = size_ b
          ∧ pairwise_equal (take (Z.to_nat (size_ a)) bufa)
              (take (Z.to_nat (size_ b)) bufb)).
Proof.
  intros Hoa Hob Hia Hib.
  pose proof (length_contents _ _ _ Hoa Hia) as Hla.
  pose proof (length_contents _ _ _ Hob Hib) as Hlb.
  pose proof (owns_readable _ _ _ Hoa) as Hra.
  pose proof (owns_readable _ _ _ Hob) as Hrb.
  set (xs := take (Z.to_nat (size_ a)) bufa) in *.
  set (ys := take (Z.to_nat (size_ b)) bufb) in *.
  unfold operator_eq, GetSize.
  destruct (Z.eqb_spec (size_ a) (size_ b)) as [Heq|Hne].
  - unfold std_equal.
    rewrite (bind_Ok _ _ _ _ _ (distance_vector h a ltac:(apply Hia))).
    rewrite <- Hla.
    destruct (equal_loop_Ok xs ys _ _ h Hra Hrb ltac:(lia))
      as (r & Hrun & Hr).
    exists r. split; [done|]. rewrite Hr.
    split; [by intros ? | by intros [_ ?]].
  - exists false. split; [done|]. split; [done | by intros [? _]].
Qed.

Lemma operator_lt_Ok (h : heap) a b bufa bufb :
  owns h a bufa -> owns h b bufb -> invariant a -> invariant b ->
  ∃ r, operator_lt a b h = Ok r h
       ∧ (r = true <->
          lex_less (take (Z.to_nat (size_ a)) bufa)
            (take (Z.to_nat (size_ b)) bufb)).
Proof.
  intros Hoa Hob Hia Hib.
  pose proof (length_contents _ _ _ Hoa Hia) as Hla.
  pose proof (length_contents _ _ _ Hob Hib) as Hlb.
  pose proof (owns_readable _ _ _ Hoa) as Hra.
  pose proof (owns_readable _ _ _ Hob) as Hrb.
  set (xs := take (Z.to_nat (size_ a)) bufa) in *.
  set (ys := take (Z.to_nat (size_ b)) bufb) in *.
  unfold operator_lt, std_lexicographical_compare.
  rewrite (bind_Ok _ _ _ _ _ (distance_vector h a ltac:(apply Hia))).
  rewrite (bind_Ok _ _ _ _ _ (distance_vector h b ltac:(apply Hib))).
  rewrite <- Hla, <- Hlb.
  by apply lexicographical_loop_Ok.
Qed.

(** The six operators on two vectors that own their slots and satisfy the
    invariant: [==] is same size and pairwise equal elements, [<] is the
    lexicographic order, the other four are the negations the source
    derives them by. *)
Lemma comparison_operators (h : heap) a b bufa bufb :
  owns h a bufa -> owns h b bufb -> invariant a -> invariant b ->
  ∃ xs ys eq lt lt',
    contents h a = Some xs ∧ contents h b = Some ys
    ∧ operator_eq a b h = Ok eq h
    ∧ (eq = true <-> size_ a = size_ b ∧ pairwise_equal xs ys)
    ∧ operator_lt a b h = Ok lt h
    ∧ (lt = true <-> lex_less xs ys)
    ∧ operator_lt b a h = Ok lt' h
    ∧ (lt' = true <-> lex_less ys xs)
    ∧ operator_ne a b h = Ok (negb eq) h
    ∧ operator_le a b h = Ok (negb lt') h
    ∧ operator_gt a b h = Ok (negb (negb lt')) h
    ∧ operator_ge a b h = Ok (negb lt) h.
Proof.
  intros Hoa Hob Hia Hib.
  destruct (operator_eq_Ok h a b _ _ Hoa Hob Hia Hib) as (eq & Heq & Heq').
  destruct (operator_lt_Ok h a b _ _ Hoa Hob Hia Hib) as (lt & Hlt & Hlt').
  destruct (operator_lt_Ok h b a _ _ Hob Hoa Hib Hia) as (lt' & Hgt & Hgt').
  exists (take (Z.to_nat (size_ a)) bufa), (take (Z.to_nat (size_ b)) bufb).
  exists eq, lt, lt'.
  assert (Hle : operator_le a b h = Ok (negb lt') h).
  { unfold operator_le. by rewrite (bind_Ok _ _ _ _ _ Hgt). }
  split_and!; try done.
  - by apply owns_contents.
  - by apply owns_contents.
  - unfold operator_ne. by rewrite (bind_Ok _ _ _ _ _ Heq).
  - unfold operator_gt. by rewrite (bind_Ok _ _ _ _ _ Hle).
  - unfold operator_ge. by rewrite (bind_Ok _ _ _ _ _ Hlt).
Qed.

(** * Further properties of the code *)

(** ** The store outside a vector's own array *)

Lemma released_insert_own (h : heap) l bd :
  released (<[l := bd]> h) {| raw_ptr_ := Ptr (Some l) 0 |}
  = released h {| raw_ptr_ := Ptr (Some l) 0 |}.
Proof. unfold released; simpl. apply delete_insert_eq. Qed.

Lemma released_fresh (h : heap) bd :
  released (<[fresh (dom h) := bd]> h)
    {| raw_ptr_ := Ptr (Some (fresh (dom h))) 0 |} = h.
Proof.
  unfold released; simpl. apply delete_insert_id, fresh_None.
Qed.

Lemma released_default (h : heap) : released h ArrayPtr_default = h.
Proof. reflexivity. Qed.

(** Replacing the array [b] by a fresh one and releasing [b]: outside the
    vector's own array the store is what it was. *)
Lemma released_moved (h : heap) b buf bd :
  refers h b buf ->
  released (released (<[fresh (dom h) := bd]> h) {| raw_ptr_ := Ptr b 0 |})
    {| raw_ptr_ := Ptr (Some (fresh (dom h))) 0 |}
  = released h {| raw_ptr_ := Ptr b 0 |}.
Proof.
  intros Hb. unfold released; simpl. destruct b as [l|]; simpl in *.
  - rewrite delete_delete, delete_insert_id by apply fresh_None. done.
  - apply delete_insert_id, fresh_None.
Qed.

(** ** Constructors *)

Lemma SimpleVector_filled_Ok (h : heap) (size : Z) value :
  0 <= size ->
  ∃ this h',
    SimpleVector_filled size value h = Ok this h'
    ∧ owns h' this (replicate (Z.to_nat size) value)
    ∧ size_ this = size
    ∧ capacity_ this = size
    ∧ released h' (items_ this) = h.
Proof.
  intros Hsize. unfold SimpleVector_filled.
  destruct (Z.eq_dec size 0) as [->|Hpos].
  - rewrite (bind_Ok _ _ _ _ _ (ArrayPtr_sized_0 h)). simpl. unfold ret.
    eexists _, _. split; [reflexivity|]. simpl. split_and!; try done.
  - rewrite (bind_Ok _ _ _ _ _ (ArrayPtr_sized_Ok h size ltac:(lia))).
    set (l' := fresh (dom h)).
    set (bd := indet l' <$> seq 0 (Z.to_nat size)).
    assert (Hbd : Z.of_nat (length bd) = size) by (apply length_new; lia).
    destruct (Z.eqb_spec size 0); [lia|]. cbn [negb].
    unfold begin, ArrayPtr_Get, ptr_add; simpl.
    rewrite (bind_Ok _ _ _ _ _
      (std_fill_Ok (<[l' := bd]> h) l' bd size value
         (lookup_insert_eq _ _ _) ltac:(lia))).
    rewrite insert_insert_eq.
    rewrite splice_0_all by (rewrite length_replicate; lia).
    unfold ret. eexists _, _. split; [reflexivity|]. simpl. split_and!.
    + split; simpl.
      * unfold block; simpl. by rewrite lookup_insert_eq.
      * rewrite length_replicate. lia.
    + done.
    + done.
    + apply released_fresh.
Qed.

Lemma SimpleVector_init_Ok (h : heap) (init : list T) :
  ∃ this h',
    SimpleVector_init init h = Ok this h'
    ∧ owns h' this init
    ∧ size_ this = Z.of_nat (length init)
    ∧ capacity_ this = Z.of_nat (length init)
    ∧ released h' (items_ this) = h.
Proof.
  unfold SimpleVector_init.
  destruct init as [|x init].
  - simpl. unfold bind, ret; simpl.
    eexists _, _. split; [reflexivity|]. simpl. split_and!; try done.
  - set (xs := x :: init).
    assert (Hlen : 0 < Z.of_nat (length xs)) by (simpl; lia).
    rewrite (bind_Ok _ _ _ _ _ (ArrayPtr_sized_Ok h _ Hlen)).
    set (l' := fresh (dom h)).
    set (bd := indet l' <$> seq 0 (Z.to_nat (Z.of_nat (length xs)))).
    assert (Hbd : length bd = length xs).
    { unfold bd. rewrite length_fmap, length_seq. lia. }
    unfold begin, ArrayPtr_Get; simpl.
    change (Ptr (Some l') 0) with (Ptr (Some l') (Z.of_nat 0)).
    rewrite (bind_Ok _ _ _ _ _
      (copy_init_Ok xs l' 0 (<[l' := bd]> h) bd
         (lookup_insert_eq _ _ _) ltac:(lia))).
    rewrite insert_insert_eq, splice_0_all by done.
    unfold ret. eexists _, _. split; [reflexivity|]. simpl. split_and!.
    + split; simpl; [|done].
      unfold block; simpl. by rewrite lookup_insert_eq.
    + done.
    + done.
    + apply released_fresh.
Qed.

Lemma SimpleVector_reserved_Ok (h : heap) (n : Z) :
  0 <= n ->
  ∃ this h' buf,
    SimpleVector_reserved (Reserve_proxy n) h = Ok this h'
    ∧ owns h' this buf
    ∧ size_ this = 0
    ∧ capacity_ this = n
    ∧ released h' (items_ this) = h.
Proof.
  intros Hn. unfold SimpleVector_reserved, Reserve_proxy; simpl.
  destruct (Z.eq_dec n 0) as [->|Hpos].
  - rewrite (bind_Ok _ _ _ _ _ (ArrayPtr_sized_0 h)). unfold ret.
    eexists _, _, []. split; [reflexivity|]. simpl. split_and!; try done.
  - rewrite (bind_Ok _ _ _ _ _ (ArrayPtr_sized_Ok h n ltac:(lia))).
    unfold ret. eexists _, _, _. split; [reflexivity|]. simpl. split_and!.
    + split; simpl.
      * unfold block; simpl. by rewrite lookup_insert_eq.
      * apply length_new. lia.
    + done.
    + done.
    + apply released_fresh.
Qed.

(** X1. [SimpleVector(size)] and [SimpleVector(size, value)] build a vector
    of [size] elements, all [Type()] respectively all [value], with capacity
    [size]; it is empty exactly when [size] is 0; outside the vector's own
    array the store is what it was, and nothing is allocated for size 0. *)
Theorem sized_constructors (h : heap) (size : Z) value :
  0 <= size ->
  (∃ this h',
     SimpleVector_sized size h = Ok this h'
     ∧ GetSize this = size ∧ GetCapacity this = size
     ∧ IsEmpty this = (size =? 0)
     ∧ contents h' this = Some (replicate (Z.to_nat size) T_default)
     ∧ released h' (items_ this) = h
     ∧ (size = 0 -> h' = h))
  ∧ (∃ this h',
       SimpleVector_filled size value h = Ok this h'
       ∧ GetSize this = size ∧ GetCapacity this = size
       ∧ IsEmpty this = (size =? 0)
       ∧ contents h' this = Some (replicate (Z.to_nat size) value)
       ∧ released h' (items_ this) = h
       ∧ (size = 0 -> h' = h)).
Proof.
  intros Hsize.
  assert (Hfilled : forall v,
    ∃ this h',
      SimpleVector_filled size v h = Ok this h'
      ∧ GetSize this = size ∧ GetCapacity this = size
      ∧ IsEmpty this = (size =? 0)
      ∧ contents h' this = Some (replicate (Z.to_nat size) v)
      ∧ released h' (items_ this) = h
      ∧ (size = 0 -> h' = h)).
  { intros v.
    destruct (SimpleVector_filled_Ok h size v Hsize)
      as (this & h' & Hrun & Ho & Hsz & Hcap & Hrel).
    exists this, h'. unfold GetSize, GetCapacity, IsEmpty.
    split_and!; try done.
    - by rewrite Hsz.
    - rewrite (owns_contents _ _ _ Ho) by (unfold invariant; lia).
      rewrite Hsz, take_ge; [done|]. rewrite length_replicate. lia.
    - intros ->. unfold SimpleVector_filled in Hrun.
      rewrite (bind_Ok _ _ _ _ _ (ArrayPtr_sized_0 h)) in Hrun.
      simpl in Hrun. unfold ret in Hrun. by injection Hrun. }
  split; [apply (Hfilled T_default) | apply Hfilled].
Qed.

(** X2. [SimpleVector(std::initializer_list)] builds a vector whose elements
    are those of the list in order, with size and capacity the length of the
    list; outside the vector's own array the store is what it was. *)
Theorem init_constructor (h : heap) (init : list T) :
  ∃ this h',
    SimpleVector_init init h = Ok this h'
    ∧ GetSize this = Z.of_nat (length init)
    ∧ GetCapacity this = Z.of_nat (length init)
    ∧ contents h' this = Some init
    ∧ (forall (i : nat) x,
         init !! i = Some x -> elem h' this (Z.of_nat i) = Some x)
    ∧ released h' (items_ this) = h.
Proof.
  destruct (SimpleVector_init_Ok h init)
    as (this & h' & Hrun & Ho & Hsz & Hcap & Hrel).
  assert (Hc : contents h' this = Some init).
  { rewrite (owns_contents _ _ _ Ho) by (unfold invariant; lia).
    rewrite Hsz, take_ge; [done | lia]. }
  exists this, h'. unfold GetSize, GetCapacity. split_and!; try done.
  intros i x Hx. by apply (contents_elem _ _ _ _ _ Hc).
Qed.

(** ** [PushBack] and the store *)

(** [PushBack] changes the store inside the vector's own array only, and
    keeps the array when there is room. *)
Lemma PushBack_store (h : heap) this buf item :
  owns h this buf -> invariant this -> capacity_ this < 2 ^ w ->
  (size_ this = capacity_ this -> 2 * capacity_ this < 2 ^ w) ->
  ∃ this' h',
    PushBack item this h = Ok this' h'
    ∧ released h' (items_ this') = released h (items_ this)
    ∧ (size_ this < capacity_ this -> items_ this' = items_ this).
Proof using w_pos.
  intros Ho [H0 Hle] Hcap Hdbl. pose proof pow_w_ge_2 as Hw.
  destruct (owns_inv _ _ _ Ho) as (b & Hi & Hb & Hlen).
  destruct this as [items size capacity]; simpl in *. subst items.
  unfold PushBack; simpl.
  destruct (Z.ltb_spec size capacity) as [Hlt|Hge].
  - destruct b as [l|]; simpl in Hb; [|subst buf; simpl in Hlen; lia].
    unfold ArrayPtr_at; simpl.
    rewrite (bind_Ok _ _ _ _ _ (store_Ok h l buf size item Hb ltac:(lia))).
    unfold ret. eexists _, _. split; [reflexivity|]. simpl.
    split; [apply released_insert_own | done].
  - assert (size = capacity) as -> by lia. specialize (Hdbl eq_refl).
    rewrite size_t_1, (size_t_small (capacity * 2)) by lia.
    set (new_capacity := Z.max 1 (capacity * 2)).
    rewrite (bind_Ok _ _ _ _ _ (ArrayPtr_sized_Ok h new_capacity ltac:(lia))).
    set (l' := fresh (dom h)).
    set (bd := indet l' <$> seq 0 (Z.to_nat new_capacity)).
    assert (Hbd : Z.of_nat (length bd) = new_capacity)
      by (apply length_new; lia).
    unfold begin, end_, ArrayPtr_Get, ArrayPtr_at; simpl.
    rewrite (bind_Ok _ _ _ _ _
      (std_copy_Ok (<[l' := bd]> h) b buf 0 capacity 0 l' bd
         (refers_insert_ne _ _ _ _ _ Hb (fresh_None h))
         ltac:(lia) ltac:(lia) (lookup_insert_eq _ _ _)
         ltac:(lia) ltac:(lia) (or_introl (refers_fresh _ _ _ Hb)))).
    rewrite insert_insert_eq, Z.sub_0_r, drop_0.
    change (Z.to_nat 0) with 0%nat.
    set (bd1 := splice bd 0 (take (Z.to_nat capacity) buf)).
    assert (Hbd1 : length bd1 = length bd).
    { apply length_splice. rewrite length_take. lia. }
    rewrite (bind_Ok _ _ _ _ _
      (store_Ok (<[l' := bd1]> h) l' bd1 capacity item
         (lookup_insert_eq _ _ _) ltac:(lia))).
    rewrite insert_insert_eq.
    rewrite (bind_Ok _ _ _ _ _
      (ArrayPtr_dtor_Ok (<[l' := <[Z.to_nat capacity := item]> bd1]> h)
         b buf (refers_insert_ne _ _ _ _ _ Hb (fresh_None h)))).
    unfold ret. eexists _, _. split; [reflexivity|]. simpl.
    split; [by apply (released_moved h b buf) | lia].
Qed.

Lemma PushBack_all_store xs : forall (h : heap) this buf,
  owns h this buf -> invariant this -> capacity_ this < 2 ^ w ->
  (size_ this + Z.of_nat (length xs) <= capacity_ this
   ∨ 2 * (size_ this + Z.of_nat (length xs)) <= 2 ^ w) ->
  ∃ this' h' buf',
    PushBack_all xs this h = Ok this' h'
    ∧ owns h' this' buf' ∧ invariant this'
    ∧ size_ this' = size_ this + Z.of_nat (length xs)
    ∧ take (Z.to_nat (size_ this')) buf'
      = take (Z.to_nat (size_ this)) buf ++ xs
    ∧ released h' (items_ this') = released h (items_ this)
    ∧ (size_ this + Z.of_nat (length xs) <= capacity_ this ->
       items_ this' = items_ this ∧ capacity_ this' = capacity_ this).
Proof using w_pos.
  induction xs as [|x xs IH]; intros h this buf Ho Hinv Hcap Hbound.
  - exists this, h, buf. simpl. rewrite Z.add_0_r, app_nil_r. done.
  - cbn [PushBack_all length] in *.
    assert (Hdbl : size_ this = capacity_ this -> 2 * capacity_ this < 2 ^ w)
      by (destruct Hinv; lia).
    destruct (PushBack_Ok h this buf x Ho Hinv Hcap Hdbl)
      as (this1 & h1 & buf1 & Hrun & Ho1 & Hsz1 & Hcap1 & Htake1 & _).
    destruct (PushBack_store h this buf x Ho Hinv Hcap Hdbl)
      as (this1' & h1' & Hrun' & Hrel1 & Hkeep1).
    rewrite Hrun in Hrun'. injection Hrun' as <- <-.
    rewrite (bind_Ok _ _ _ _ _ Hrun).
    assert (Hinv1 : invariant this1 ∧ capacity_ this1 < 2 ^ w).
    { unfold invariant in *. rewrite Hsz1, Hcap1.
      pose proof pow_w_ge_2.
      destruct (Z.ltb_spec (size_ this) (capacity_ this)); lia. }
    destruct Hinv1 as [Hinv1 Hcap1'].
    assert (Hbound1 : size_ this1 + Z.of_nat (length xs) <= capacity_ this1
                      ∨ 2 * (size_ this1 + Z.of_nat (length xs)) <= 2 ^ w).
    { rewrite Hsz1, Hcap1.
      destruct (Z.ltb_spec (size_ this) (capacity_ this)); lia. }
    destruct (IH h1 this1 buf1 Ho1 Hinv1 Hcap1' Hbound1)
      as (this2 & h2 & buf2 & Hrun2 & Ho2 & Hinv2 & Hsz2 & Htake2
          & Hrel2 & Hkeep2).
    exists this2, h2, buf2. split_and!; try done.
    + lia.
    + rewrite Htake2, Htake1, <- app_assoc. done.
    + by rewrite Hrel2.
    + intros Hfits.
      destruct (Z.ltb_spec (size_ this) (capacity_ this)); [|lia].
      destruct Hkeep2 as [Hi2 Hc2]; [lia|].
      rewrite Hi2, Hc2, Hkeep1 by lia. done.
Qed.

(** X3. While the values fit in the capacity, pushing them does not
    reallocate: the vector keeps its array and its capacity, the values are
    appended in order, and no other array of the store changes. *)
Theorem PushBack_within_capacity (h : heap) this buf xs :
  owns h this buf -> invariant this -> capacity_ this < 2 ^ w ->
  size_ this + Z.of_nat (length xs) <= capacity_ this ->
  ∃ old this' h',
    contents h this = Some old
    ∧ PushBack_all xs this h = Ok this' h'
    ∧ items_ this' = items_ this
    ∧ GetCapacity this' = GetCapacity this
    ∧ GetSize this' = GetSize this + Z.of_nat (length xs)
    ∧ contents h' this' = Some (old ++ xs)
    ∧ released h' (items_ this) = released h (items_ this).
Proof using w_pos.
  intros Ho Hinv Hcap Hfits.
  destruct (PushBack_all_store xs h this buf Ho Hinv Hcap (or_introl Hfits))
    as (this' & h' & buf' & Hrun & Ho' & Hinv' & Hsz & Htake & Hrel & Hkeep).
  destruct (Hkeep Hfits) as [Hitems Hcap'].
  exists (take (Z.to_nat (size_ this)) buf), this', h'.
  unfold GetSize, GetCapacity. split_and!.
  - by apply owns_contents.
  - done.
  - done.
  - done.
  - done.
  - by rewrite (owns_contents _ _ _ Ho' Hinv'), Htake.
  - rewrite <- Hitems at 1. exact Hrel.
Qed.

(** X4. A vector built from [Reserve(n)] is empty with capacity [n], and
    takes up to [n] pushed values without reallocating: it keeps the array
    the constructor allocated and the capacity [n], and holds the values in
    order. *)
Theorem reserved_vector_takes_pushes (h : heap) (n : Z) xs :
  0 <= n < 2 ^ w -> Z.of_nat (length xs) <= n ->
  ∃ this h1 this' h',
    SimpleVector_reserved (Reserve_proxy n) h = Ok this h1
    ∧ GetSize this = 0 ∧ IsEmpty this = true ∧ GetCapacity this = n
    ∧ PushBack_all xs this h1 = Ok this' h'
    ∧ items_ this' = items_ this
    ∧ GetCapacity this' = n
    ∧ contents h' this' = Some xs
    ∧ released h' (items_ this') = h.
Proof using w_pos.
  intros Hn Hlen.
  destruct (SimpleVector_reserved_Ok h n ltac:(lia))
    as (this & h1 & buf & Hctor & Ho & Hsz & Hcap & Hrel).
  assert (Hinv : invariant this) by (unfold invariant; lia).
  destruct (PushBack_all_store xs h1 this buf Ho Hinv ltac:(lia)
              ltac:(left; lia))
    as (this' & h' & buf' & Hrun & Ho' & Hinv' & Hsz' & Htake & Hrel'
        & Hkeep).
  destruct Hkeep as [Hitems Hcap']; [lia|].
  exists this, h1, this', h'. unfold GetSize, GetCapacity, IsEmpty.
  split_and!; try done.
  - by rewrite Hsz.
  - lia.
  - rewrite (owns_contents _ _ _ Ho' Hinv'), Htake, Hsz. done.
  - by rewrite Hrel'.
Qed.

(** X5. [Clear] empties the vector and keeps its array and capacity: the
    elements stay in their slots (readable through [operator[]], refused by
    [At]), and values pushed afterwards, up to the capacity, go into the
    same array. *)
Theorem Clear_keeps_buffer (h : heap) this buf xs :
  owns h this buf -> invariant this -> capacity_ this < 2 ^ w ->
  Z.of_nat (length xs) <= capacity_ this ->
  IsEmpty (Clear this) = true
  ∧ GetCapacity (Clear this) = GetCapacity this
  ∧ contents h (Clear this) = Some []
  ∧ (forall i, elem h (Clear this) i = elem h this i)
  ∧ (forall index, 0 <= index ->
       At index (Clear this) h = Throw (out_of_range "index >= size") h)
  ∧ ∃ this' h',
      PushBack_all xs (Clear this) h = Ok this' h'
      ∧ items_ this' = items_ this
      ∧ GetCapacity this' = GetCapacity this
      ∧ contents h' this' = Some xs.
Proof using w_pos.
  intros Ho Hinv Hcap Hlen.
  assert (Ho' : owns h (Clear this) buf) by (destruct Ho; by split).
  assert (Hinv' : invariant (Clear this)).
  { destruct Hinv. unfold invariant; simpl. lia. }
  split_and!; try done.
  - intros index Hindex. unfold At; simpl.
    by destruct (Z.leb_spec 0 index); [|lia].
  - destruct (PushBack_all_store xs h (Clear this) buf Ho' Hinv' Hcap)
      as (this' & h' & buf' & Hrun & Ho2 & Hinv2 & Hsz & Htake & _ & Hkeep).
    { left. simpl. lia. }
    destruct Hkeep as [Hitems Hcap']; [simpl; lia|].
    exists this', h'. unfold GetCapacity. split_and!; try done.
    by rewrite (owns_contents _ _ _ Ho2 Hinv2), Htake.
Qed.

(** X6. A vector built from an initializer list, pushed onto and then
    destroyed returns the store exactly as it found it: every array the
    reallocations created has been released, once. *)
Theorem lifetime_leaves_store (h : heap) (init xs : list T) :
  2 * Z.of_nat (length init + length xs) <= 2 ^ w ->
  (let* this := SimpleVector_init init in
   let* this := PushBack_all xs this in
   SimpleVector_dtor this) h = Ok tt h.
Proof using w_pos.
  intros Hbound. pose proof pow_w_ge_2 as Hw.
  destruct (SimpleVector_init_Ok h init)
    as (this & h1 & Hctor & Ho & Hsz & Hcap & Hrel).
  rewrite (bind_Ok _ _ _ _ _ Hctor).
  destruct (PushBack_all_store xs h1 this init Ho)
    as (this' & h' & buf' & Hrun & Ho' & _ & _ & _ & Hrel' & _);
    [unfold invariant; lia | lia | right; lia |].
  rewrite (bind_Ok _ _ _ _ _ Hrun).
  destruct Ho' as [Hblk _].
  rewrite (SimpleVector_dtor_Ok h' this' buf' Hblk).
  by rewrite Hrel', Hrel.
Qed.

(** ** Elements by index *)

Lemma owns_elem_lookup (h : heap) this buf (i : Z) :
  owns h this buf -> 0 <= i -> elem h this i = buf !! Z.to_nat i.
Proof.
  intros Ho Hi. destruct (buf !! Z.to_nat i) as [x|] eqn:Hx.
  - by apply (owns_elem _ _ _ _ _ Ho).
  - destruct (owns_inv _ _ _ Ho) as (b & Hit & Hb & _).
    unfold elem, operator_index, ArrayPtr_at, load. rewrite Hit; simpl.
    destruct b as [l|]; [|done]. simpl in Hb. rewrite Hb.
    destruct (Z.leb_spec 0 (0 + i)); [|done].
    by rewrite Z.add_0_l, Hx.
Qed.

(** X7. On a vector whose array has exactly [capacity_] slots and whose
    size is at most its capacity (what every constructor and operation
    except copying establishes), with the doubled capacity representable
    when a reallocation is due: [Insert(begin() + p, value)] with
    [0 <= p <= size] returns an
    iterator to the new element, which reads [value]; the elements before
    [p] keep their index, those from [p] on move up by one; the size grows
    by one and the invariant holds afterwards. *)
Theorem Insert_places (h : heap) this buf (p : Z) value :
  owns h this buf -> invariant this -> capacity_ this < 2 ^ w ->
  (size_ this = capacity_ this -> 2 * capacity_ this < 2 ^ w) ->
  0 <= p <= size_ this ->
  ∃ it this' h',
    Insert (ptr_add (begin this) p) value this h = Ok (it, this') h'
    ∧ it = ptr_add (begin this') p
    ∧ load it h' = Ok value h'
    ∧ GetSize this' = GetSize this + 1
    ∧ invariant this'
    ∧ elem h' this' p = Some value
    ∧ (forall i, 0 <= i < p -> elem h' this' i = elem h this i)
    ∧ (forall i, p <= i < size_ this ->
                 elem h' this' (i + 1) = elem h this i).
Proof using w_pos.
  intros Ho Hinv Hcap Hdbl Hp.
  destruct (Insert_Ok h this buf p value Ho Hinv Hcap Hdbl Hp)
    as (this' & h' & buf' & Hrun & Ho' & Hsz & Hcap' & Htake).
  assert (Hinv' : invariant this').
  { unfold invariant in *. rewrite Hsz, Hcap'.
    destruct (Z.ltb_spec (size_ this) (capacity_ this)); lia. }
  set (xs := take (Z.to_nat (size_ this)) buf) in *.
  assert (Hxs : length xs = Z.to_nat (size_ this)).
  { unfold xs. rewrite length_take. destruct Ho, Hinv. lia. }
  assert (Hl : length (take (Z.to_nat p) xs) = Z.to_nat p).
  { rewrite length_take. lia. }
  assert (Hread : forall i, 0 <= i < size_ this' ->
            elem h' this' i
            = (take (Z.to_nat p) xs ++ value :: drop (Z.to_nat p) xs)
                !! Z.to_nat i).
  { intros i Hi. rewrite (owns_elem_lookup _ _ _ _ Ho') by lia.
    rewrite <- Htake. by rewrite lookup_take_lt by lia. }
  assert (Hold : forall i, 0 <= i < size_ this ->
            elem h this i = xs !! Z.to_nat i).
  { intros i Hi. rewrite (owns_elem_lookup _ _ _ _ Ho) by lia.
    unfold xs. by rewrite lookup_take_lt by lia. }
  assert (Hat : elem h' this' p = Some value).
  { rewrite Hread by lia. rewrite lookup_app_r by lia.
    rewrite Hl, Nat.sub_diag. done. }
  exists (ptr_add (begin this') p), this', h'.
  unfold GetSize. split_and!; try done.
  - unfold elem, operator_index, ArrayPtr_at in Hat.
    unfold begin, ArrayPtr_Get.
    destruct (load (ptr_add (raw_ptr_ (items_ this')) p) h')
      as [x hx| |] eqn:Hload; try done.
    injection Hat as ->. f_equal.
    unfold load in Hload. repeat case_match; congruence.
  - intros i Hi. rewrite Hread, Hold by lia.
    rewrite lookup_app_l by lia. by rewrite lookup_take_lt by lia.
  - intros i Hi. rewrite Hread, Hold by lia.
    rewrite lookup_app_r by lia. rewrite Hl.
    replace (Z.to_nat (i + 1) - Z.to_nat p)%nat
      with (S (Z.to_nat i - Z.to_nat p)) by lia.
    change (drop (Z.to_nat p) xs !! (Z.to_nat i - Z.to_nat p)%nat
            = xs !! Z.to_nat i).
    rewrite lookup_drop. f_equal. lia.
Qed.

(** X8. [Erase(begin() + p)] with [0 <= p < size] removes element [p]: the
    elements before it keep their index, those after it move down by one,
    the size shrinks by one and the capacity stays; the iterator returned is
    [begin() + p], which reads the element that followed when there is
    one. *)
Theorem Erase_removes (h : heap) this buf (p : Z) :
  owns h this buf -> invariant this -> capacity_ this < 2 ^ w ->
  0 <= p < size_ this ->
  ∃ it this' h',
    Erase (ptr_add (begin this) p) this h = Ok (it, this') h'
    ∧ it = ptr_add (begin this') p
    ∧ GetSize this' = GetSize this - 1
    ∧ GetCapacity this' = GetCapacity this
    ∧ invariant this'
    ∧ (forall i, 0 <= i < p -> elem h' this' i = elem h this i)
    ∧ (forall i, p <= i < size_ this - 1 ->
                 elem h' this' i = elem h this (i + 1))
    ∧ (p < size_ this - 1 ->
       ∃ x, elem h this (p + 1) = Some x ∧ load it h' = Ok x h').
Proof using w_pos.
  intros Ho Hinv Hcap Hp.
  destruct (Erase_Ok h this buf p Ho Hinv Hcap Hp)
    as (this' & h' & buf' & Hrun & Ho' & Hsz & Hcap' & Htake).
  assert (Hinv' : invariant this').
  { unfold invariant in *. rewrite Hsz, Hcap'. lia. }
  set (xs := take (Z.to_nat (size_ this)) buf) in *.
  assert (Hxs : length xs = Z.to_nat (size_ this)).
  { unfold xs. rewrite length_take. destruct Ho, Hinv. lia. }
  assert (Hl : length (take (Z.to_nat p) xs) = Z.to_nat p).
  { rewrite length_take. lia. }
  assert (Hread : forall i, 0 <= i < size_ this' ->
            elem h' this' i
            = (take (Z.to_nat p) xs ++ drop (S (Z.to_nat p)) xs)
                !! Z.to_nat i).
  { intros i Hi. rewrite (owns_elem_lookup _ _ _ _ Ho') by lia.
    rewrite <- Htake. by rewrite lookup_take_lt by lia. }
  assert (Hold : forall i, 0 <= i < size_ this ->
            elem h this i = xs !! Z.to_nat i).
  { intros i Hi. rewrite (owns_elem_lookup _ _ _ _ Ho) by lia.
    unfold xs. by rewrite lookup_take_lt by lia. }
  assert (Hshift : forall i, p <= i < size_ this - 1 ->
            elem h' this' i = elem h this (i + 1)).
  { intros i Hi. rewrite Hread, Hold by lia.
    rewrite lookup_app_r by lia. rewrite Hl, lookup_drop. f_equal. lia. }
  exists (ptr_add (begin this') p), this', h'.
  unfold GetSize, GetCapacity. split_and!; try done.
  - intros i Hi. rewrite Hread, Hold by lia.
    rewrite lookup_app_l by lia. by rewrite lookup_take_lt by lia.
  - intros Hlast.
    destruct (lookup_lt_is_Some_2 xs (Z.to_nat (p + 1))) as [x Hx]; [lia|].
    exists x. rewrite Hold by lia. split; [done|].
    pose proof (Hshift p ltac:(lia)) as Hat.
    rewrite (Hold (p + 1)), Hx in Hat by lia.
    unfold elem, operator_index, ArrayPtr_at in Hat.
    unfold begin, ArrayPtr_Get.
    destruct (load (ptr_add (raw_ptr_ (items_ this')) p) h')
      as [y hy| |] eqn:Hload; try done.
    injection Hat as ->. f_equal.
    unfold load in Hload. repeat case_match; congruence.
Qed.

(** X9. On a vector whose array has exactly [capacity_] slots and whose
    size is at most its capacity (what every constructor and operation
    except copying establishes), with the doubled capacity representable
    when a reallocation is due:
    [PopBack] on a non-empty vector drops the last element and keeps
    the capacity and the invariant; the dropped value stays in its slot,
    where [operator[]] still reads it and [At] refuses it.  [PushBack]
    followed by [PopBack] gives back the sequence and the size. *)
Theorem PopBack_drops_last (h : heap) this buf item :
  owns h this buf -> invariant this -> capacity_ this < 2 ^ w ->
  (size_ this = capacity_ this -> 2 * capacity_ this < 2 ^ w) ->
  (0 < size_ this ->
   ∃ xs,
     contents h this = Some xs
     ∧ contents h (PopBack this) = Some (take (Z.to_nat (size_ this - 1)) xs)
     ∧ GetSize (PopBack this) = GetSize this - 1
     ∧ GetCapacity (PopBack this) = GetCapacity this
     ∧ invariant (PopBack this)
     ∧ elem h (PopBack this) (size_ this - 1) = xs !! Z.to_nat (size_ this - 1)
     ∧ At (size_ this - 1) (PopBack this) h
       = Throw (out_of_range "index >= size") h)
  ∧ ∃ this' h',
      PushBack item this h = Ok this' h'
      ∧ contents h' (PopBack this') = contents h this
      ∧ GetSize (PopBack this') = GetSize this.
Proof using w_pos.
  intros Ho Hinv Hcap Hdbl. split.
  - intros Hpos.
    destruct (PopBack_nonempty this Hinv Hpos Hcap) as [Hsz Hinv'].
    assert (Ho' : owns h (PopBack this) buf) by (destruct Ho; by split).
    exists (take (Z.to_nat (size_ this)) buf).
    unfold GetSize, GetCapacity. split_and!; try done.
    + by apply owns_contents.
    + rewrite (owns_contents _ _ _ Ho' Hinv'), Hsz, take_take.
      f_equal. f_equal. lia.
    + rewrite (owns_elem_lookup _ _ _ _ Ho') by lia.
      by rewrite lookup_take_lt by lia.
    + unfold At. rewrite Hsz.
      by destruct (Z.leb_spec (size_ this - 1) (size_ this - 1)); [|lia].
  - destruct (PushBack_Ok h this buf item Ho Hinv Hcap Hdbl)
      as (this' & h' & buf' & Hrun & Ho' & Hsz & Hcap' & Htake & _).
    assert (Hinv' : invariant this' ∧ capacity_ this' < 2 ^ w).
    { unfold invariant in *. rewrite Hsz, Hcap'. pose proof pow_w_ge_2.
      destruct (Z.ltb_spec (size_ this) (capacity_ this)); lia. }
    destruct Hinv' as [Hinv' Hcap2].
    destruct (PopBack_nonempty this' Hinv' ltac:(destruct Hinv; lia) Hcap2)
      as [Hsz2 Hinv2].
    assert (Ho2 : owns h' (PopBack this') buf') by (destruct Ho'; by split).
    exists this', h'. unfold GetSize. split_and!; [done | | lia].
    rewrite (owns_contents _ _ _ Ho2 Hinv2), (owns_contents _ _ _ Ho Hinv).
    f_equal. rewrite Hsz2, Hsz.
    replace (size_ this + 1 - 1) with (size_ this) by lia.
    replace (take (Z.to_nat (size_ this)) buf')
      with (take (Z.to_nat (size_ this)) (take (Z.to_nat (size_ this')) buf')).
    + rewrite Htake. apply take_app_length'.
      rewrite length_take. destruct Ho, Hinv. lia.
    + rewrite take_take. f_equal. lia.
Qed.

(** X10. On a vector whose array has exactly [capacity_] slots and whose
    size is at most its capacity (what every constructor and operation
    except copying establishes), with the doubled capacity representable
    when a reallocation is due:
    at the end of the vector the positional operations agree with the
    back operations: [Insert(end(), item)] leaves the size, capacity and
    elements that [PushBack(item)] leaves, and on a non-empty vector
    [Erase(end() - 1)] leaves those that [PopBack()] leaves. *)
Theorem end_operations_agree (h : heap) this buf item :
  owns h this buf -> invariant this -> capacity_ this < 2 ^ w ->
  (size_ this = capacity_ this -> 2 * capacity_ this < 2 ^ w) ->
  (∃ it v1 h1 v2 h2,
     Insert (end_ this) item this h = Ok (it, v1) h1
     ∧ PushBack item this h = Ok v2 h2
     ∧ GetSize v1 = GetSize v2
     ∧ GetCapacity v1 = GetCapacity v2
     ∧ contents h1 v1 = contents h2 v2)
  ∧ (0 < size_ this ->
     ∃ it v1 h1,
       Erase (ptr_add (end_ this) (-1)) this h = Ok (it, v1) h1
       ∧ GetSize v1 = GetSize (PopBack this)
       ∧ GetCapacity v1 = GetCapacity (PopBack this)
       ∧ contents h1 v1 = contents h (PopBack this)).
Proof using w_pos.
  intros Ho Hinv Hcap Hdbl.
  pose proof (length_contents _ _ _ Ho Hinv) as Hxs.
  split.
  - destruct (Insert_Ok h this buf (size_ this) item Ho Hinv Hcap Hdbl)
      as (v1 & h1 & buf1 & Hins & Ho1 & Hsz1 & Hcap1 & Htake1);
      [destruct Hinv; lia|].
    destruct (PushBack_Ok h this buf item Ho Hinv Hcap Hdbl)
      as (v2 & h2 & buf2 & Hpush & Ho2 & Hsz2 & Hcap2 & Htake2 & _).
    assert (Hinv1 : invariant v1).
    { unfold invariant in *. rewrite Hsz1, Hcap1.
      destruct (Z.ltb_spec (size_ this) (capacity_ this)); lia. }
    assert (Hinv2 : invariant v2).
    { unfold invariant in *. rewrite Hsz2, Hcap2.
      destruct (Z.ltb_spec (size_ this) (capacity_ this)); lia. }
    exists (ptr_add (begin v1) (size_ this)), v1, h1, v2, h2.
    unfold GetSize, GetCapacity. split_and!; try done.
    + lia.
    + congruence.
    + rewrite (owns_contents _ _ _ Ho1 Hinv1), (owns_contents _ _ _ Ho2 Hinv2).
      rewrite Htake1, Htake2. f_equal.
      rewrite take_ge, drop_ge by lia. done.
  - intros Hpos.
    destruct (Erase_Ok h this buf (size_ this - 1) Ho Hinv Hcap ltac:(lia))
      as (v1 & h1 & buf1 & Hers & Ho1 & Hsz1 & Hcap1 & Htake1).
    destruct (PopBack_nonempty this Hinv Hpos Hcap) as [Hsz Hinv'].
    assert (Ho' : owns h (PopBack this) buf) by (destruct Ho; by split).
    assert (Hinv1 : invariant v1).
    { unfold invariant in *. rewrite Hsz1, Hcap1. lia. }
    exists (ptr_add (begin v1) (size_ this - 1)), v1, h1.
    unfold GetSize, GetCapacity. split_and!.
    + unfold end_. rewrite ptr_add_add.
      replace (size_ this + -1) with (size_ this - 1) by lia. exact Hers.
    + lia.
    + done.
    + rewrite (owns_contents _ _ _ Ho1 Hinv1), (owns_contents _ _ _ Ho' Hinv').
      rewrite Htake1, Hsz. f_equal.
      rewrite drop_ge, app_nil_r, take_take by lia. f_equal. lia.
Qed.

Lemma block_elem_lookup (h : heap) this buf (i : Z) :
  block h (items_ this) = Some buf -> 0 <= i ->
  elem h this i = buf !! Z.to_nat i.
Proof.
  intros (b & Hit & Hb)%block_inv Hi.
  unfold elem, operator_index, ArrayPtr_at, load. rewrite Hit; simpl.
  destruct b as [l|]; simpl in Hb.
  - rewrite Hb. destruct (Z.leb_spec 0 (0 + i)); [|lia].
    rewrite Z.add_0_l. by destruct (buf !! Z.to_nat i).
  - subst buf. by rewrite lookup_nil.
Qed.

(** X11. [operator[]] is checked against neither the size nor the
    capacity.  Let the vector's pointer be null or denote a live array of
    [m] slots ([m] is the capacity on every vector whose [capacity_] field
    is right; on a copy, [m] is the source's capacity).  A write through
    [this[i]] with [0 <= i < m] succeeds and changes slot [i] only, so with
    [i >= size] the elements of the vector are unchanged; with [i >= m]
    both the write and the read leave the array. *)
Theorem operator_index_unchecked (h : heap) this buf (i : Z) x :
  block h (items_ this) = Some buf ->
  (0 <= i < Z.of_nat (length buf) ->
   ∃ h',
     store (operator_index i this) x h = Ok tt h'
     ∧ elem h' this i = Some x
     ∧ (forall j, j ≠ i -> elem h' this j = elem h this j)
     ∧ (size_ this <= i -> contents h' this = contents h this)
     ∧ released h' (items_ this) = released h (items_ this))
  ∧ (Z.of_nat (length buf) <= i ->
     store (operator_index i this) x h = Undefined
     ∧ load (operator_index i this) h = Undefined).
Proof.
  intros Hblk.
  destruct (block_inv _ _ _ Hblk) as (b & Hi & Hb).
  split.
  - intros Hin.
    destruct b as [l|]; simpl in Hb; [|subst buf; simpl in Hin; lia].
    assert (Hrun : store (operator_index i this) x h
                   = Ok tt (<[l := <[Z.to_nat i := x]> buf]> h)).
    { unfold operator_index, ArrayPtr_at. rewrite Hi; simpl.
      rewrite ptr_add_Ptr, Z.add_0_l. by apply store_Ok. }
    rewrite Hrun. eexists. split; [reflexivity|].
    assert (Hblk' : block (<[l := <[Z.to_nat i := x]> buf]> h) (items_ this)
                    = Some (<[Z.to_nat i := x]> buf)).
    { rewrite Hi. unfold block; simpl. by rewrite lookup_insert_eq. }
    assert (Hother : forall j, j ≠ i ->
              elem (<[l := <[Z.to_nat i := x]> buf]> h) this j
              = elem h this j).
    { intros j Hj. destruct (Z.le_gt_cases 0 j) as [Hj0|Hj0].
      - rewrite (block_elem_lookup _ _ _ _ Hblk'),
          (block_elem_lookup _ _ _ _ Hblk) by lia.
        apply list_lookup_insert_ne. lia.
      - unfold elem, operator_index, ArrayPtr_at, load. rewrite Hi; simpl.
        rewrite lookup_insert_eq, Hb.
        by destruct (Z.leb_spec 0 (0 + j)); [lia|]. }
    split_and!.
    + rewrite (block_elem_lookup _ _ _ _ Hblk') by lia.
      apply list_lookup_insert_eq. lia.
    + exact Hother.
    + intros Hge. unfold contents. apply Forall_mapM_ext.
      apply Forall_forall. intros k Hk.
      apply list_elem_of_lookup in Hk as [n Hn].
      apply lookup_seq in Hn as [-> Hn]. apply Hother. lia.
    + rewrite Hi. apply released_insert_own.
  - intros Hout. unfold operator_index, ArrayPtr_at. rewrite Hi; simpl.
    rewrite ptr_add_Ptr, Z.add_0_l. unfold store, load; simpl.
    destruct b as [l|]; simpl in Hb; [|done]. rewrite Hb.
    destruct (Z.leb_spec 0 i); [|done]. simpl.
    destruct (Z.ltb_spec i (Z.of_nat (length buf))); [lia|].
    split; [done|]. by rewrite lookup_ge_None_2 by lia.
Qed.

(** X12. On a vector whose array has exactly [capacity_] slots and whose
    size is at most its capacity (what every constructor and operation
    except copying establishes):
    [Resize(n)] with [n <= size] keeps the first [n] elements, the
    capacity and the store.  With [n > capacity] it reallocates to
    [max(2 * capacity, n)] slots, sets the size to [n], keeps the elements
    and appends [n - size] copies of [Type()]; the invariant holds
    afterwards. *)
Theorem Resize_shrinks_and_grows (h : heap) this buf (n : Z) :
  owns h this buf -> invariant this -> capacity_ this < 2 ^ w -> 0 <= n ->
  ∃ xs,
    contents h this = Some xs
    ∧ (n <= size_ this ->
       ∃ this',
         Resize n this h = Ok this' h
         ∧ GetSize this' = n
         ∧ GetCapacity this' = GetCapacity this
         ∧ items_ this' = items_ this
         ∧ contents h this' = Some (take (Z.to_nat n) xs))
    ∧ (capacity_ this < n ->
       ∃ this' h',
         Resize n this h = Ok this' h'
         ∧ GetSize this' = n
         ∧ GetCapacity this' = Z.max (size_t (capacity_ this * 2)) n
         ∧ (2 * capacity_ this < 2 ^ w ->
            GetCapacity this' = Z.max (2 * capacity_ this) n)
         ∧ invariant this'
         ∧ contents h' this'
           = Some (xs ++ replicate (Z.to_nat (n - size_ this)) T_default)).
Proof using w_pos.
  intros Ho Hinv Hcap Hn.
  pose proof (length_contents _ _ _ Ho Hinv) as Hxs.
  exists (take (Z.to_nat (size_ this)) buf).
  split; [by apply owns_contents|]. split.
  - intros Hshrink. unfold Resize.
    destruct (Z.leb_spec n (size_ this)); [|lia].
    eexists. split; [reflexivity|].
    unfold GetSize, GetCapacity; simpl. split_and!; try done.
    set (this' := {| items_ := items_ this; size_ := n;
                     capacity_ := capacity_ this |}).
    assert (Ho' : owns h this' buf) by (destruct Ho; by split).
    assert (Hinv' : invariant this').
    { destruct Hinv. unfold invariant; simpl. lia. }
    rewrite (owns_contents _ _ _ Ho' Hinv'). simpl.
    rewrite take_take. do 2 f_equal. lia.
  - intros Hgrow.
    destruct (Resize_Ok h this buf n Ho Hinv Hcap Hn)
      as (this' & h' & buf' & Hrun & Ho' & Hsz & Hcap' & Htake & Hfill).
    destruct (Z.leb_spec n (size_ this)); [destruct Hinv; lia|].
    destruct (Z.leb_spec n (capacity_ this)); [lia|].
    assert (Hinv' : invariant this').
    { unfold invariant. rewrite Hsz, Hcap'. lia. }
    exists this', h'. unfold GetSize, GetCapacity. split_and!; try done.
    + intros Hdbl. rewrite Hcap', size_t_small; [f_equal; lia|].
      destruct Hinv. lia.
    + rewrite (owns_contents _ _ _ Ho' Hinv'). f_equal.
      rewrite Z.min_l in Htake by (destruct Hinv; lia).
      destruct Ho' as [_ Hlen']. destruct Hinv as [Hsz0 Hle].
      apply list_eq. intros k.
      destruct (decide (k < Z.to_nat (size_ this))%nat) as [Hk|Hk].
      * rewrite lookup_app_l by lia.
        rewrite lookup_take_lt by lia.
        rewrite <- (lookup_take_lt buf' (Z.to_nat (size_ this))) by done.
        by rewrite Htake, lookup_take_lt by lia.
      * rewrite lookup_app_r by lia. rewrite Hxs.
        destruct (decide (k < Z.to_nat n)%nat) as [Hkn|Hkn].
        -- rewrite lookup_take_lt by lia.
           rewrite lookup_replicate_2 by lia.
           rewrite <- (Nat2Z.id k). apply Hfill. lia.
        -- rewrite lookup_take_ge by lia.
           symmetry. apply lookup_replicate_None. lia.
Qed.

(** ** Copies *)

(** Reading a vector looks at its own array only. *)
Lemma contents_agree (h h' : heap) this :
  (forall l, base (raw_ptr_ (items_ this)) = Some l -> h' !! l = h !! l) ->
  contents h' this = contents h this.
Proof.
  intros Hsame. unfold contents. apply mapM_ext. intros i.
  unfold elem, load, operator_index, ArrayPtr_at, ptr_add. simpl.
  destruct (base (raw_ptr_ (items_ this))) as [l|] eqn:Hl; [|done].
  rewrite (Hsame l eq_refl).
  destruct (h !! l) as [bl|]; [|done].
  destruct (0 <=? _); [|done]. by destruct (bl !! _).
Qed.

Lemma owns_agree (h h' : heap) this buf :
  (forall l, base (raw_ptr_ (items_ this)) = Some l -> h' !! l = h !! l) ->
  owns h this buf -> owns h' this buf.
Proof.
  intros Hsame [Hblk Hlen]. split; [|done]. unfold block in *.
  destruct (off (raw_ptr_ (items_ this)) =? 0); [|done].
  destruct (base (raw_ptr_ (items_ this))) as [l|] eqn:Hl; [|done].
  by rewrite (Hsame l eq_refl).
Qed.

Lemma owns_live (h : heap) this buf l :
  owns h this buf -> base (raw_ptr_ (items_ this)) = Some l ->
  is_Some (h !! l).
Proof.
  intros (b & Hi & Hb & _)%owns_inv. rewrite Hi; simpl. intros ->.
  simpl in Hb. by exists buf.
Qed.

(** X13. For a source whose array has exactly [capacity_] slots and whose
    size is at most its capacity (what every constructor and operation
    except copying establishes; a source that is itself a copy of a vector
    of non-zero capacity is excluded):
    the copy constructor makes a deep copy: the new vector has the
    source's size and elements in an array of its own, the source reads as
    before, and a write to an element of the copy leaves the source's
    elements unchanged. *)
Theorem copy_is_deep (h : heap) other buf :
  owns h other buf -> invariant other ->
  ∃ this h',
    SimpleVector_copy other h = Ok this h'
    ∧ GetSize this = GetSize other
    ∧ contents h' this = contents h other
    ∧ contents h' other = contents h other
    ∧ (forall l, base (raw_ptr_ (items_ other)) = Some l ->
                 base (raw_ptr_ (items_ this)) ≠ Some l)
    ∧ (forall i x, 0 <= i < size_ other ->
         ∃ h'',
           store (operator_index i this) x h' = Ok tt h''
           ∧ elem h'' this i = Some x
           ∧ contents h'' other = contents h other).
Proof.
  intros Ho Hinv.
  destruct (SimpleVector_copy_Ok h other buf Ho Hinv)
    as (this & h' & buf' & Hrun & Hsz & _ & Hblk & Hlen & Hc & Hframe).
  assert (Hother : forall l, base (raw_ptr_ (items_ other)) = Some l ->
                             h' !! l = h !! l
                             ∧ base (raw_ptr_ (items_ this)) ≠ Some l).
  { intros l Hl. apply Hframe. by apply (owns_live h other buf). }
  exists this, h'. unfold GetSize. split_and!; try done.
  - apply contents_agree. intros l Hl. by apply Hother.
  - intros l Hl. by apply Hother.
  - intros i x Hi.
    destruct (block_inv _ _ _ Hblk) as (b & Hit & Hb).
    destruct Ho as [_ Hcap]. destruct Hinv as [H0 Hle].
    destruct b as [l'|]; simpl in Hb; [|subst buf'; simpl in Hlen; lia].
    unfold operator_index, ArrayPtr_at. rewrite Hit; simpl.
    rewrite ptr_add_Ptr, Z.add_0_l.
    rewrite (store_Ok h' l' buf' i x Hb ltac:(lia)).
    eexists. split; [reflexivity|]. split.
    + unfold elem, operator_index, ArrayPtr_at. rewrite Hit; simpl.
      rewrite ptr_add_Ptr, Z.add_0_l.
      rewrite (load_Ok _ l' (<[Z.to_nat i := x]> buf') i x); [done | | lia |].
      * apply lookup_insert_eq.
      * apply list_lookup_insert_eq. lia.
    + apply contents_agree. intros l Hl.
      destruct (Hother l Hl) as [Hsame Hne].
      rewrite lookup_insert_ne; [done|].
      rewrite Hit in Hne. simpl in Hne. congruence.
Qed.

(** X14. For two different objects, a source whose array has exactly
    [capacity_] slots and whose size is at most its capacity (what every
    constructor and operation except copying establishes), and a target
    whose pointer is null or denotes a live array other than the source's:
    copy assignment gives the target the size and elements of the source in
    an array of its own (an array of as many slots as the source's
    capacity that was not in the store before, so it is not the source's),
    leaves the source and every other object as they were, and releases the
    array the target owned before. *)
Theorem assign_copy_replaces (objs : objects) (h : heap) this rhs a b
    bufa bufb :
  this ≠ rhs -> objs !! rhs = Some a -> objs !! this = Some b ->
  owns h a bufa -> invariant a -> block h (items_ b) = Some bufb ->
  (forall l, base (raw_ptr_ (items_ a)) = Some l ->
             base (raw_ptr_ (items_ b)) ≠ Some l) ->
  ∃ objs' h' c,
    assign_copy this rhs objs h = Ok objs' h'
    ∧ objs' !! this = Some c
    ∧ objs' !! rhs = Some a
    ∧ (forall o, o ≠ this -> objs' !! o = objs !! o)
    ∧ GetSize c = GetSize a
    ∧ contents h' c = contents h a
    ∧ contents h' a = contents h a
    ∧ (forall l, base (raw_ptr_ (items_ b)) = Some l -> h' !! l = None)
    ∧ (∃ bufc, block h' (items_ c) = Some bufc
               ∧ Z.of_nat (length bufc) = capacity_ a)
    ∧ (forall l, is_Some (h !! l) -> base (raw_ptr_ (items_ c)) ≠ Some l)
    ∧ (forall l, base (raw_ptr_ (items_ a)) = Some l ->
                 base (raw_ptr_ (items_ c)) ≠ Some l).
Proof.
  intros Hne Ha Hb Hoa Hinv Hblkb Hdisj.
  destruct (SimpleVector_copy_Ok h a bufa Hoa Hinv)
    as (c & h1 & bufc & Hrun & Hsz & _ & Hblkc & Hlen & Hc & Hframe).
  unfold assign_copy, deref.
  rewrite bool_decide_eq_true_2 by done.
  rewrite Ha. cbn [bind ret]. unfold bind at 1. rewrite Hrun.
  rewrite Hb. cbn [bind ret]. rewrite swap_eq.
  assert (Hblkb1 : block h1 (items_ b) = Some bufb).
  { destruct (block_inv _ _ _ Hblkb) as (bb & Hib & Hbb). rewrite Hib.
    apply block_Ptr. destruct bb as [lb|]; simpl in *; [|done].
    destruct (Hframe lb) as [-> _]; [by exists bufb | done]. }
  unfold bind. rewrite (SimpleVector_dtor_Ok h1 b bufb Hblkb1). unfold ret.
  assert (Hkeep : forall l, base (raw_ptr_ (items_ b)) ≠ Some l ->
                            released h1 (items_ b) !! l = h1 !! l).
  { intros l Hl. unfold released.
    destruct (base (raw_ptr_ (items_ b))) as [l0|]; [|done].
    apply lookup_delete_ne. congruence. }
  assert (Hown : forall l, base (raw_ptr_ (items_ c)) = Some l ->
                           base (raw_ptr_ (items_ b)) ≠ Some l).
  { intros l Hl Hbl.
    destruct (block_inv _ _ _ Hblkb) as (bb & Hib & Hbb).
    rewrite Hib in Hbl. simpl in Hbl. subst bb. simpl in Hbb.
    destruct (Hframe l) as [_ Hfresh]; [by exists bufb | done]. }
  eexists _, _, c. split; [reflexivity|]. unfold GetSize. split_and!.
  - apply lookup_insert_eq.
  - by rewrite lookup_insert_ne.
  - intros o Ho. by rewrite lookup_insert_ne.
  - done.
  - rewrite <- Hc. apply contents_agree. intros l Hl. apply Hkeep.
    by apply Hown.
  - apply contents_agree. intros l Hl.
    rewrite Hkeep by (by apply Hdisj).
    apply Hframe. by apply (owns_live h a bufa).
  - intros l Hl. unfold released. rewrite Hl. apply lookup_delete_eq.
  - exists bufc. split; [|done].
    destruct (block_inv _ _ _ Hblkc) as (bc & Hic & Hbc). rewrite Hic.
    apply block_Ptr. destruct bc as [lc|]; simpl in *; [|done].
    rewrite Hkeep; [done|]. apply Hown. by rewrite Hic.
  - intros l Hl. by apply Hframe.
  - intros l Hl. apply Hframe. by apply (owns_live h a bufa).
Qed.

(** X15. An [ArrayPtr] built for [n] slots is non-null exactly when [n] is
    not 0 and then owns a fresh array of [n] slots.  After [Release()] the
    object is null and its destructor frees nothing; the pointer handed out
    still denotes the array, which is freed once by the [ArrayPtr] rebuilt
    from it; destroying one non-null [ArrayPtr] twice deletes a dead
    array. *)
Theorem ArrayPtr_ownership (h : heap) :
  (forall n, 0 <= n ->
     ∃ a h' buf,
       ArrayPtr_sized n h = Ok a h'
       ∧ ArrayPtr_bool a = negb (n =? 0)
       ∧ block h' a = Some buf
       ∧ Z.of_nat (length buf) = n
       ∧ released h' a = h)
  ∧ (forall a buf,
       block h a = Some buf ->
       ArrayPtr_bool (snd (ArrayPtr_Release a)) = false
       ∧ ArrayPtr_dtor (snd (ArrayPtr_Release a)) h = Ok tt h
       ∧ ArrayPtr_raw (fst (ArrayPtr_Release a)) = a
       ∧ (let* _ := ArrayPtr_dtor (snd (ArrayPtr_Release a)) in
          ArrayPtr_dtor (ArrayPtr_raw (fst (ArrayPtr_Release a)))) h
         = Ok tt (released h a)
       ∧ (ArrayPtr_bool a = true ->
          (let* _ := ArrayPtr_dtor a in ArrayPtr_dtor a) h = Undefined)).
Proof.
  split.
  - intros n Hn. destruct (Z.eq_dec n 0) as [->|Hpos].
    + exists ArrayPtr_default, h, []. by split_and!.
    + rewrite (ArrayPtr_sized_Ok h n) by lia.
      eexists _, _, _. split; [reflexivity|].
      destruct (Z.eqb_spec n 0); [lia|]. split_and!.
      * done.
      * unfold block; simpl. apply lookup_insert_eq.
      * apply length_new. lia.
      * apply released_fresh.
  - intros a buf Hblk.
    destruct (block_inv _ _ _ Hblk) as (b & -> & Hb). simpl.
    split_and!; try done.
    + unfold bind. simpl. by apply (ArrayPtr_dtor_Ok h b buf).
    + unfold ArrayPtr_bool, ptr_eqb; simpl.
      destruct b as [l|]; [|done]. simpl in Hb. intros _.
      unfold bind, ArrayPtr_dtor, delete_array; simpl.
      by rewrite Hb, lookup_delete_eq.
Qed.

(** ** Comparisons, continued *)

Lemma pairwise_equal_refl xs :
  (forall x, elem_eq x x = true) -> pairwise_equal xs xs.
Proof.
  intros Hrefl. induction xs as [|x xs IH]; constructor; [apply Hrefl | done].
Qed.

(** X16. For a vector [a] whose array has exactly [capacity_] slots and
    whose size is at most its capacity (what every constructor and
    operation except copying establishes; an [a] that is itself a copy of a
    vector of non-zero capacity is excluded):
    a copy compares equal to its source: when the elements'
    [operator==] is reflexive, [a == b] is true and [a != b] is false for the
    copy [b] of [a]. *)
Theorem copy_equals_source (h : heap) a buf :
  (forall x, elem_eq x x = true) ->
  owns h a buf -> invariant a ->
  ∃ b h',
    SimpleVector_copy a h = Ok b h'
    ∧ operator_eq a b h' = Ok true h'
    ∧ operator_ne a b h' = Ok false h'.
Proof.
  intros Hrefl Ho Hinv.
  destruct (SimpleVector_copy_Ok h a buf Ho Hinv)
    as (b & h' & buf' & Hrun & Hsz & _ & Hblk & Hlen & Hc & Hframe).
  pose proof (length_contents _ _ _ Ho Hinv) as Hxs.
  assert (Ho' : owns h' a buf).
  { apply (owns_agree h); [|done]. intros l Hl.
    apply Hframe. by apply (owns_live h a buf). }
  pose proof (owns_readable _ _ _ Ho') as Hra.
  destruct (block_inv _ _ _ Hblk) as (bb & Hib & Hbb).
  assert (Hrb : readable h' (begin b) (take (Z.to_nat (size_ a)) buf')).
  { unfold begin, ArrayPtr_Get. rewrite Hib; simpl.
    by apply readable_block. }
  assert (Hsame : take (Z.to_nat (size_ a)) buf'
                  = take (Z.to_nat (size_ a)) buf).
  { assert (Hcb : contents h' b = Some (take (Z.to_nat (size_ a)) buf')).
    { apply readable_contents; [done|].
      rewrite length_take, Hsz. destruct Ho, Hinv. lia. }
    rewrite Hc, (owns_contents _ _ _ Ho Hinv) in Hcb. congruence. }
  rewrite Hsame in Hrb.
  set (xs := take (Z.to_nat (size_ a)) buf) in *.
  assert (Heq : operator_eq a b h' = Ok true h').
  { unfold operator_eq, GetSize. rewrite Hsz, Z.eqb_refl.
    unfold std_equal.
    rewrite (bind_Ok _ _ _ _ _ (distance_vector h' a ltac:(apply Hinv))).
    rewrite <- Hxs.
    destruct (equal_loop_Ok xs xs _ _ h' Hra Hrb eq_refl)
      as (r & Hloop & Hr).
    rewrite Hloop. f_equal. apply Hr. by apply pairwise_equal_refl. }
  exists b, h'. split_and!; [done | done |].
  unfold operator_ne. by rewrite (bind_Ok _ _ _ _ _ Heq).
Qed.

Lemma pairwise_equal_iff_not_less xs :
  (forall x y,
     elem_eq x y = negb (elem_lt x y) && negb (elem_lt y x)) ->
  forall ys,
    pairwise_equal xs ys <-> ¬ lex_less xs ys ∧ ¬ lex_less ys xs.
Proof.
  intros Hcons. unfold pairwise_equal.
  induction xs as [|x xs IH]; intros [|y ys].
  - split; [|constructor]. intros _. split; inversion 1.
  - split; [inversion 1|]. intros [Hn _]. destruct Hn. constructor.
  - split; [inversion 1|]. intros [_ Hn]. destruct Hn. constructor.
  - rewrite Forall2_cons, IH, Hcons.
    destruct (elem_lt x y) eqn:Hxy, (elem_lt y x) eqn:Hyx; simpl.
    + split; [by intros [? _]|]. intros [Hn _]. destruct Hn.
      by apply lex_less_head.
    + split; [by intros [? _]|]. intros [Hn _]. destruct Hn.
      by apply lex_less_head.
    + split; [by intros [? _]|]. intros [_ Hn]. destruct Hn.
      by apply lex_less_head.
    + split.
      * intros [_ [Hn1 Hn2]]. split; intros Hl; inversion Hl; subst.
        -- by rewrite Hxy in *.
        -- by apply Hn1.
        -- by rewrite Hyx in *.
        -- by apply Hn2.
      * intros [Hn1 Hn2]. split; [done|].
        split; intros Hl; [apply Hn1 | apply Hn2]; by apply lex_less_tail.
Qed.

Lemma lex_less_asym xs ys :
  (forall x y, elem_lt x y = true -> elem_lt y x = false) ->
  lex_less xs ys -> ¬ lex_less ys xs.
Proof.
  intros Hasym Hl. induction Hl as [y ys|x xs y ys Hxy|x xs y ys Hxy Hyx Hl IH].
  - inversion 1.
  - apply Hasym in Hxy as Hyx. inversion 1; subst.
    + by rewrite Hyx in *.
    + by rewrite Hxy in *.
  - inversion 1; subst.
    + by rewrite Hyx in *.
    + by apply IH.
Qed.

(** X17. When the elements' [operator==] holds exactly if neither element
    is less than the other (as on integers), the vector operators agree in
    the same way: [a == b] is true exactly if [a <= b] and [a >= b] are. *)
Theorem eq_iff_le_and_ge (h : heap) a b bufa bufb :
  (forall x y,
     elem_eq x y = negb (elem_lt x y) && negb (elem_lt y x)) ->
  owns h a bufa -> owns h b bufb -> invariant a -> invariant b ->
  ∃ eq le ge,
    operator_eq a b h = Ok eq h
    ∧ operator_le a b h = Ok le h
    ∧ operator_ge a b h = Ok ge h
    ∧ eq = le && ge.
Proof.
  intros Hcons Hoa Hob Hia Hib.
  destruct (comparison_operators h a b bufa bufb Hoa Hob Hia Hib)
    as (xs & ys & eq & lt & lt' & Hxs & Hys & Heq & Heq' & _ & Hlt & _
        & Hlt' & _ & Hle & _ & Hge).
  exists eq, (negb lt'), (negb lt). split_and!; try done.
  assert (Hsz : pairwise_equal xs ys -> size_ a = size_ b).
  { intros Hpe%Forall2_length.
    rewrite (owns_contents _ _ _ Hoa Hia) in Hxs.
    rewrite (owns_contents _ _ _ Hob Hib) in Hys.
    injection Hxs as <-. injection Hys as <-.
    rewrite (length_contents _ _ _ Hoa Hia) in Hpe.
    rewrite (length_contents _ _ _ Hob Hib) in Hpe.
    destruct Hia, Hib. lia. }
  pose proof (pairwise_equal_iff_not_less xs Hcons ys) as Hiff.
  destruct eq, lt, lt'; simpl; try done.
  - destruct Heq' as [[_ Hpe] _]; [done|].
    apply Hiff in Hpe as [Hn _]. destruct Hn. by apply Hlt.
  - destruct Heq' as [[_ Hpe] _]; [done|].
    apply Hiff in Hpe as [Hn _]. destruct Hn. by apply Hlt.
  - destruct Heq' as [[_ Hpe] _]; [done|].
    apply Hiff in Hpe as [_ Hn]. destruct Hn. by apply Hlt'.
  - assert (Hpe : pairwise_equal xs ys).
    { apply Hiff. split; intros Hl.
      - apply Hlt in Hl. done.
      - apply Hlt' in Hl. done. }
    apply Heq'. split; [by apply Hsz | done].
Qed.

(** X18. When the elements' [operator<] is asymmetric, so is the vectors':
    [a < b] and [b < a] are never both true, hence one of [a <= b] and
    [b <= a] always is, and [a > b] implies [a >= b]. *)
Theorem ordering_is_total (h : heap) a b bufa bufb :
  (forall x y, elem_lt x y = true -> elem_lt y x = false) ->
  owns h a bufa -> owns h b bufb -> invariant a -> invariant b ->
  ∃ lt lt',
    operator_lt a b h = Ok lt h
    ∧ operator_lt b a h = Ok lt' h
    ∧ lt && lt' = false
    ∧ operator_le a b h = Ok (negb lt') h
    ∧ operator_le b a h = Ok (negb lt) h
    ∧ negb lt' || negb lt = true
    ∧ operator_gt a b h = Ok lt' h
    ∧ operator_ge a b h = Ok (negb lt) h
    ∧ (lt' = true -> negb lt = true).
Proof.
  intros Hasym Hoa Hob Hia Hib.
  destruct (operator_lt_Ok h a b _ _ Hoa Hob Hia Hib) as (lt & Hlt & Hlt').
  destruct (operator_lt_Ok h b a _ _ Hob Hoa Hib Hia) as (lt' & Hgt & Hgt').
  assert (Hle : operator_le a b h = Ok (negb lt') h).
  { unfold operator_le. by rewrite (bind_Ok _ _ _ _ _ Hgt). }
  assert (Hnot : lt && lt' = false).
  { destruct lt, lt'; try done.
    destruct (lex_less_asym _ _ Hasym (proj1 Hlt' eq_refl)).
    by apply Hgt'. }
  exists lt, lt'. split_and!; try done.
  - unfold operator_le. by rewrite (bind_Ok _ _ _ _ _ Hlt).
  - destruct lt, lt'; done.
  - unfold operator_gt. rewrite (bind_Ok _ _ _ _ _ Hle).
    by rewrite negb_involutive.
  - unfold operator_ge. by rewrite (bind_Ok _ _ _ _ _ Hlt).
  - destruct lt, lt'; done.
Qed.

(** ** Capacity over a run of pushes *)

(** X19. On a vector whose array has exactly [capacity_] slots and whose
    size is at most its capacity (what every constructor and operation
    except copying establishes):
    after [Reserve(n)] has grown the vector, values pushed up to the
    size [n] go into the array [Reserve] allocated: the capacity stays [n]
    and the elements are the old ones followed by the pushed ones. *)
Theorem Reserve_then_pushes (h : heap) this buf (n : Z) xs :
  owns h this buf -> invariant this ->
  capacity_ this < n -> n < 2 ^ w ->
  size_ this + Z.of_nat (length xs) <= n ->
  ∃ old v1 h1 v2 h2,
    contents h this = Some old
    ∧ Reserve n this h = Ok v1 h1
    ∧ PushBack_all xs v1 h1 = Ok v2 h2
    ∧ items_ v2 = items_ v1
    ∧ GetCapacity v2 = n
    ∧ GetSize v2 = GetSize this + Z.of_nat (length xs)
    ∧ contents h2 v2 = Some (old ++ xs).
Proof using w_pos.
  intros Ho Hinv Hgrow Hn Hfits.
  destruct (Reserve_grows h this buf n Ho Hinv Hgrow)
    as (v1 & h1 & buf1 & Hres & Ho1 & Hcap1 & Hsz1 & Hbuf1 & _).
  assert (Hinv1 : invariant v1).
  { unfold invariant in *. rewrite Hsz1, Hcap1. lia. }
  destruct (PushBack_all_store xs h1 v1 buf1 Ho1 Hinv1 ltac:(lia)
              ltac:(left; lia))
    as (v2 & h2 & buf2 & Hrun & Ho2 & Hinv2 & Hsz2 & Htake & _ & Hkeep).
  destruct Hkeep as [Hitems Hcap2]; [lia|].
  exists (take (Z.to_nat (size_ this)) buf), v1, h1, v2, h2.
  unfold GetSize, GetCapacity. split_and!; try done.
  - by apply owns_contents.
  - lia.
  - lia.
  - rewrite (owns_contents _ _ _ Ho2 Hinv2), Htake, Hsz1, Hbuf1.
    do 2 f_equal. apply take_app_length'.
    by rewrite (length_contents _ _ _ Ho Hinv).
Qed.



(** X21. After a move the two objects can both be destroyed: the
    moved-from object frees nothing and the new object frees the array,
    once. *)
Theorem move_then_destroy (h : heap) a buf :
  block h (items_ a) = Some buf ->
  SimpleVector_dtor (snd (SimpleVector_move a)) h = Ok tt h
  ∧ (let* _ := SimpleVector_dtor (snd (SimpleVector_move a)) in
     SimpleVector_dtor (fst (SimpleVector_move a))) h
    = Ok tt (released h (items_ a))
  ∧ (forall l, base (raw_ptr_ (items_ a)) = Some l ->
       (let* _ := SimpleVector_dtor a in SimpleVector_dtor a) h = Undefined).
Proof.
  intros Hblk. rewrite SimpleVector_move_eq. simpl. split_and!.
  - done.
  - unfold bind; simpl. by apply (SimpleVector_dtor_Ok h a buf).
  - intros l Hl. unfold bind.
    rewrite (SimpleVector_dtor_Ok h a buf Hblk).
    unfold SimpleVector_dtor, ArrayPtr_dtor, delete_array, released.
    by rewrite Hl, lookup_delete_eq.
Qed.

End Model.

(** * The vector of integers *)

Notation "'let*' x := m 'in' k" := (bind m (fun x => k))
  (at level 10, x name, m at level 100, k at level 200).

(** C1. The size/capacity invariant does not hold in every reachable state:
    copy construction from the vector [{1, 2}] yields an object of size 2
    whose [capacity_] is 0. *)
Theorem copy_breaks_invariant :
  ∃ a h b h',
    SimpleVector_init int_indet [1; 2] ∅ = Ok a h
    ∧ invariant a
    ∧ SimpleVector_copy int_indet a h = Ok b h'
    ∧ size_ b = 2 ∧ capacity_ b = 0
    ∧ ¬ invariant b.
Proof.
  eexists _, _, _, _. split; [vm_compute; reflexivity|].
  split; [unfold invariant; simpl; lia|].
  split; [vm_compute; reflexivity|].
  unfold invariant; simpl. split_and!; [done | done | lia].
Qed.

(** C2. The copy does not take over the source's capacity: copying the
    vector [{1, 2}], of capacity 2, gives size 2 and the elements 1, 2 in an
    array of the copy's own, with [capacity_] 0; copy assignment gives the
    target the same object; and [PushBack] on the copy then writes outside
    the one-slot array it allocates. *)
Theorem copy_loses_capacity :
  ∃ a h b h',
    SimpleVector_init int_indet [1; 2] ∅ = Ok a h
    ∧ capacity_ a = 2
    ∧ SimpleVector_copy int_indet a h = Ok b h'
    ∧ contents h' b = Some [1; 2]
    ∧ items_ b ≠ items_ a
    ∧ block h' (items_ b) = Some [1; 2]
    ∧ capacity_ b = 0
    ∧ (∃ objs' h'',
         assign_copy int_indet 2%positive 1%positive
           {[ 1%positive := a; 2%positive := SimpleVector_default ]} h
         = Ok objs' h''
         ∧ objs' !! 2%positive = Some b)
    ∧ PushBack 64 int_indet 3 b h' = Undefined.
Proof.
  eexists _, _, _, _. split; [vm_compute; reflexivity|].
  split; [done|].
  split; [vm_compute; reflexivity|].
  split; [vm_compute; reflexivity|].
  split; [done|].
  split; [vm_compute; reflexivity|].
  split; [done|].
  split; [|vm_compute; reflexivity].
  eexists _, _. split; vm_compute; reflexivity.
Qed.

(** C3. [Resize(n)] does not set the size to [n] when
    [size_ < n <= capacity_]: on the vector [{1, 2, 3}] shrunk to size 2,
    [Resize(3)] default-fills slot 2 and leaves the size 2. *)
Theorem Resize_within_capacity_keeps_size :
  ∃ a h b h',
    (let* v := SimpleVector_init int_indet [1; 2; 3] in
     Resize 64 0 int_indet 2 v) ∅ = Ok a h
    ∧ size_ a = 2 ∧ capacity_ a = 3
    ∧ Resize 64 0 int_indet 3 a h = Ok b h'
    ∧ size_ b = 2
    ∧ block h' (items_ b) = Some [1; 2; 0].
Proof.
  eexists _, _, _, _. split; [vm_compute; reflexivity|].
  split; [done|]. split; [done|].
  split; [vm_compute; reflexivity|].
  split; [done|]. vm_compute; reflexivity.
Qed.

(** C9. [Reserve(n)] with [n] above the capacity does not, on every vector,
    make the capacity [n] and keep the size and the elements: the copy of
    the vector [{1, 2}] has size 2 and [capacity_] 0, so [Reserve(1)] passes
    the guard [1 > 0], allocates one slot and copies the two elements into
    it: the second write leaves the array. *)
Theorem Reserve_after_copy_overflows :
  ∃ a h b h',
    SimpleVector_init int_indet [1; 2] ∅ = Ok a h
    ∧ SimpleVector_copy int_indet a h = Ok b h'
    ∧ size_ b = 2 ∧ capacity_ b = 0
    ∧ contents h' b = Some [1; 2]
    ∧ capacity_ b < 1
    ∧ Reserve 0 int_indet 1 b h' = Undefined.
Proof.
  eexists _, _, _, _. split; [vm_compute; reflexivity|].
  split; [vm_compute; reflexivity|].
  split; [done|]. split; [done|].
  split; [vm_compute; reflexivity|].
  split; [simpl; lia|]. vm_compute; reflexivity.
Qed.

(** C8. On two vectors that own their slots and satisfy the invariant:
    [a == b] is true exactly when the sizes agree and the elements are
    pairwise equal in order; [a < b] is true exactly when [a]'s sequence is
    lexicographically less than [b]'s; [!=], [<=], [>], [>=] are the
    negations of [==], of [b < a], of [<=] and of [<].  On integers
    [{1,2,3} == {1,2,3}], [{1,2} < {1,2,3}] and [{1,3} > {1,2,9}] are
    true. *)
Theorem comparisons :
  (forall (T : Type) (elem_eq elem_lt : T -> T -> bool)
          (h : gmap loc (list T)) a b bufa bufb,
     owns h a bufa -> owns h b bufb -> invariant a -> invariant b ->
     ∃ xs ys eq lt lt',
       contents h a = Some xs ∧ contents h b = Some ys
       ∧ operator_eq elem_eq a b h = Ok eq h
       ∧ (eq = true <-> size_ a = size_ b ∧ pairwise_equal elem_eq xs ys)
       ∧ operator_lt elem_lt a b h = Ok lt h
       ∧ (lt = true <-> lex_less elem_lt xs ys)
       ∧ operator_lt elem_lt b a h = Ok lt' h
       ∧ (lt' = true <-> lex_less elem_lt ys xs)
       ∧ operator_ne elem_eq a b h = Ok (negb eq) h
       ∧ operator_le elem_lt a b h = Ok (negb lt') h
       ∧ operator_gt elem_lt a b h = Ok (negb (negb lt')) h
       ∧ operator_ge elem_lt a b h = Ok (negb lt) h)
  ∧ (∃ h, (let* a := SimpleVector_init int_indet [1; 2; 3] in
           let* b := SimpleVector_init int_indet [1; 2; 3] in
           operator_eq Z.eqb a b) ∅ = Ok true h)
  ∧ (∃ h, (let* a := SimpleVector_init int_indet [1; 2] in
           let* b := SimpleVector_init int_indet [1; 2; 3] in
           operator_lt Z.ltb a b) ∅ = Ok true h)
  ∧ (∃ h, (let* a := SimpleVector_init int_indet [1; 3] in
           let* b := SimpleVector_init int_indet [1; 2; 9] in
           operator_gt Z.ltb a b) ∅ = Ok true h).
Proof.
  split_and!.
  - intros T elem_eq elem_lt h a b bufa bufb.
    apply comparison_operators.
  - eexists. vm_compute. reflexivity.
  - eexists. vm_compute. reflexivity.
  - eexists. vm_compute. reflexivity.
Qed.

Lemma PushBack_appends_witness :
  ∃ this' h',
    PushBack 64 int_indet 7
      {| items_ := {| raw_ptr_ := Ptr (Some 1%positive) 0 |};
         size_ := 2; capacity_ := 2 |}
      {[ 1%positive := [5; 6] ]} = Ok this' h'
    ∧ size_ this' = 3 ∧ capacity_ this' = 4
    ∧ contents h' this' = Some [5; 6; 7].
Proof.
  destruct (PushBack_appends 64 int_indet ltac:(lia)) as [Hpush _].
  destruct (Hpush {[ 1%positive := [5; 6] ]}
              {| items_ := {| raw_ptr_ := Ptr (Some 1%positive) 0 |};
                 size_ := 2; capacity_ := 2 |} [5; 6] 7)
    as (xs & this' & h' & Hxs & Hrun & _ & Hsz & _ & Hc & Hcap).
  - split; reflexivity.
  - unfold invariant; simpl; lia.
  - simpl; lia.
  - simpl; lia.
  - exists this', h'. vm_compute in Hxs. injection Hxs as <-.
    split_and!; [exact Hrun | exact Hsz | exact Hcap | exact Hc].
Defined.

Lemma Insert_Erase_roundtrip_witness :
  ∃ this1 h1 this2 h2,
    Insert 64 int_indet (Ptr (Some 1%positive) 1) 9
      {| items_ := {| raw_ptr_ := Ptr (Some 1%positive) 0 |};
         size_ := 2; capacity_ := 2 |}
      {[ 1%positive := [5; 6] ]}
    = Ok (ptr_add (begin this1) 1, this1) h1
    ∧ contents h1 this1 = Some [5; 9; 6]
    ∧ capacity_ this1 = 4
    ∧ Erase 64 (ptr_add (begin this1) 1) this1 h1
      = Ok (ptr_add (begin this2) 1, this2) h2
    ∧ contents h2 this2 = Some [5; 6]
    ∧ size_ this2 = 2.
Proof.
  destruct (Insert_Erase_roundtrip 64 int_indet ltac:(lia)
              {[ 1%positive := [5; 6] ]}
              {| items_ := {| raw_ptr_ := Ptr (Some 1%positive) 0 |};
                 size_ := 2; capacity_ := 2 |} [5; 6] 1 9)
    as (xs & this1 & h1 & this2 & h2
        & Hxs & Hins & Hc1 & Hcap1 & Hers & Hc2 & Hsz2).
  - split; reflexivity.
  - unfold invariant; simpl; lia.
  - simpl; lia.
  - simpl; lia.
  - simpl; lia.
  - vm_compute in Hxs. injection Hxs as <-.
    exists this1, h1, this2, h2.
    split_and!; [exact Hins | exact Hc1 | exact Hcap1 | exact Hers
                | exact Hc2 | exact Hsz2].
Defined.

Lemma At_checks_bounds_witness :
  ∃ x, [5; 6] !! Z.to_nat 1 = Some x
       ∧ bind (At 1 {| items_ := {| raw_ptr_ := Ptr (Some 1%positive) 0 |};
                       size_ := 2; capacity_ := 2 |}) load
           {[ 1%positive := [5; 6] ]}
         = Ok x {[ 1%positive := [5; 6] ]}
       ∧ load (operator_index 1
                 {| items_ := {| raw_ptr_ := Ptr (Some 1%positive) 0 |};
                    size_ := 2; capacity_ := 2 |})
           {[ 1%positive := [5; 6] ]}
         = Ok x {[ 1%positive := [5; 6] ]}.
Proof.
  destruct (At_checks_bounds {[ 1%positive := [5; 6] ]}
              {| items_ := {| raw_ptr_ := Ptr (Some 1%positive) 0 |};
                 size_ := 2; capacity_ := 2 |} 1)
    as (_ & _ & _ & Hread).
  apply (Hread [5; 6]).
  - split; reflexivity.
  - unfold invariant; simpl; lia.
  - simpl; lia.
Defined.


Lemma Reserve_frame_witness :
  ∃ this' h',
    Reserve 0 int_indet 4
      {| items_ := {| raw_ptr_ := Ptr (Some 1%positive) 0 |};
         size_ := 1; capacity_ := 2 |}
      {[ 1%positive := [5; 6] ]} = Ok this' h'
    ∧ capacity_ this' = 4
    ∧ size_ this' = 1
    ∧ contents h' this' = Some [5]
    ∧ elem h' this' 3 = Some 0.
Proof.
  destruct (Reserve_frame 0 int_indet {[ 1%positive := [5; 6] ]}
              {| items_ := {| raw_ptr_ := Ptr (Some 1%positive) 0 |};
                 size_ := 1; capacity_ := 2 |} [5; 6] 4)
    as (_ & Hgrow & _).
  - split; reflexivity.
  - unfold invariant; simpl; lia.
  - destruct Hgrow as (this' & h' & Hrun & Hcap & Hsz & _ & Hc & Hfill & _).
    + simpl; lia.
    + exists this', h'.
      split_and!; [exact Hrun | exact Hcap | exact Hsz | exact Hc |].
      apply Hfill. simpl; lia.
Defined.

Lemma PopBack_empty_wraps_witness :
  size_ (PopBack 64 SimpleVector_default) = 2 ^ 64 - 1
  ∧ capacity_ (PopBack 64 SimpleVector_default)
    < size_ (PopBack 64 SimpleVector_default)
  ∧ capacity_ (PopBack 64 SimpleVector_default) = 0.
Proof.
  destruct (@PopBack_empty_wraps Z 64 ltac:(lia) SimpleVector_default)
    as (Hsz & Hlt & _ & Hcap & _).
  - reflexivity.
  - simpl; lia.
  - split_and!; [exact Hsz | exact Hlt | exact Hcap].
Defined.

Lemma comparisons_witness :
  ∃ eq lt,
    operator_eq Z.eqb
      {| items_ := {| raw_ptr_ := Ptr (Some 1%positive) 0 |};
         size_ := 2; capacity_ := 2 |}
      {| items_ := {| raw_ptr_ := Ptr (Some 2%positive) 0 |};
         size_ := 1; capacity_ := 1 |}
      {[ 1%positive := [5; 6]; 2%positive := [9] ]}
    = Ok eq {[ 1%positive := [5; 6]; 2%positive := [9] ]}
    ∧ (eq = true <-> 2 = 1 ∧ pairwise_equal Z.eqb [5; 6] [9])
    ∧ operator_lt Z.ltb
        {| items_ := {| raw_ptr_ := Ptr (Some 1%positive) 0 |};
           size_ := 2; capacity_ := 2 |}
        {| items_ := {| raw_ptr_ := Ptr (Some 2%positive) 0 |};
           size_ := 1; capacity_ := 1 |}
        {[ 1%positive := [5; 6]; 2%positive := [9] ]}
      = Ok lt {[ 1%positive := [5; 6]; 2%positive := [9] ]}
    ∧ (lt = true <-> lex_less Z.ltb [5; 6] [9]).
Proof.
  destruct comparisons as (Hcmp & _).
  destruct (Hcmp Z Z.eqb Z.ltb
              {[ 1%positive := [5; 6]; 2%positive := [9] ]}
              {| items_ := {| raw_ptr_ := Ptr (Some 1%positive) 0 |};
                 size_ := 2; capacity_ := 2 |}
              {| items_ := {| raw_ptr_ := Ptr (Some 2%positive) 0 |};
                 size_ := 1; capacity_ := 1 |}
              [5; 6] [9])
    as (xs & ys & eq & lt & lt'
        & Hxs & Hys & Heq & Heq' & Hlt & Hlt' & _).
  - split; reflexivity.
  - split; reflexivity.
  - unfold invariant; simpl; lia.
  - unfold invariant; simpl; lia.
  - vm_compute in Hxs, Hys. injection Hxs as <-. injection Hys as <-.
    exists eq, lt.
    split_and!; [exact Heq | exact Heq' | exact Hlt | exact Hlt'].
Defined.

(** * Instances of the further properties *)

Abbreviation vec l size capacity :=
  {| items_ := {| raw_ptr_ := Ptr (Some l) 0 |};
     size_ := size; capacity_ := capacity |}.

Abbreviation heap1 buf := ({[ 1%positive := buf ]} : gmap positive (list Z)).

Lemma sized_constructors_witness :
  ∃ this h',
    SimpleVector_filled int_indet 3 42 ∅ = Ok this h'
    ∧ contents h' this = Some [42; 42; 42]
    ∧ GetCapacity this = 3.
Proof.
  destruct (sized_constructors 0 int_indet ∅ 3 42 ltac:(lia))
    as [_ (this & h' & Hrun & _ & Hcap & _ & Hc & _)].
  exists this, h'. split_and!; [exact Hrun | exact Hc | exact Hcap].
Defined.

Lemma PushBack_within_capacity_witness :
  ∃ this' h',
    PushBack_all 64 int_indet [7; 8] (vec 1%positive 2 4)
      (heap1 [5; 6; 0; 0]) = Ok this' h'
    ∧ items_ this' = items_ (vec 1%positive 2 4)
    ∧ GetCapacity this' = 4
    ∧ contents h' this' = Some [5; 6; 7; 8].
Proof.
  destruct (PushBack_within_capacity 64 int_indet ltac:(lia)
              (heap1 [5; 6; 0; 0]) (vec 1%positive 2 4) [5; 6; 0; 0] [7; 8])
    as (old & this' & h' & Hold & Hrun & Hitems & Hcap & _ & Hc & _).
  - split; reflexivity.
  - unfold invariant; simpl; lia.
  - simpl; lia.
  - simpl; lia.
  - vm_compute in Hold. injection Hold as <-.
    exists this', h'.
    split_and!; [exact Hrun | exact Hitems | exact Hcap | exact Hc].
Defined.

Lemma reserved_vector_takes_pushes_witness :
  ∃ this h1 this' h',
    SimpleVector_reserved int_indet (Reserve_proxy 3) ∅ = Ok this h1
    ∧ PushBack_all 64 int_indet [1; 2] this h1 = Ok this' h'
    ∧ items_ this' = items_ this
    ∧ GetCapacity this' = 3
    ∧ contents h' this' = Some [1; 2].
Proof.
  destruct (reserved_vector_takes_pushes 64 int_indet ltac:(lia) ∅ 3 [1; 2])
    as (this & h1 & this' & h' & Hctor & _ & _ & _ & Hrun & Hitems & Hcap
        & Hc & _).
  - lia.
  - simpl; lia.
  - exists this, h1, this', h'.
    split_and!; [exact Hctor | exact Hrun | exact Hitems | exact Hcap
                | exact Hc].
Defined.

Lemma Clear_keeps_buffer_witness :
  IsEmpty (Clear (vec 1%positive 2 2)) = true
  ∧ elem (heap1 [5; 6]) (Clear (vec 1%positive 2 2)) 1 = Some 6
  ∧ ∃ this' h',
      PushBack_all 64 int_indet [9] (Clear (vec 1%positive 2 2))
        (heap1 [5; 6]) = Ok this' h'
      ∧ items_ this' = items_ (vec 1%positive 2 2)
      ∧ contents h' this' = Some [9].
Proof.
  destruct (Clear_keeps_buffer 64 int_indet ltac:(lia)
              (heap1 [5; 6]) (vec 1%positive 2 2) [5; 6] [9])
    as (Hempty & _ & _ & Helem & _ & this' & h' & Hrun & Hitems & _ & Hc).
  - split; reflexivity.
  - unfold invariant; simpl; lia.
  - simpl; lia.
  - simpl; lia.
  - split_and!; [exact Hempty | rewrite Helem; reflexivity |].
    exists this', h'. split_and!; [exact Hrun | exact Hitems | exact Hc].
Defined.

Lemma lifetime_leaves_store_witness :
  (let* this := SimpleVector_init int_indet [1; 2] in
   let* this := PushBack_all 64 int_indet [3] this in
   SimpleVector_dtor this) ∅ = Ok tt ∅.
Proof.
  apply (lifetime_leaves_store 64 int_indet ltac:(lia) ∅ [1; 2] [3]).
  simpl; lia.
Defined.

Lemma Insert_places_witness :
  ∃ it this' h',
    Insert 64 int_indet (ptr_add (begin (vec 1%positive 2 2)) 1) 9
      (vec 1%positive 2 2) (heap1 [5; 6]) = Ok (it, this') h'
    ∧ load it h' = Ok 9 h'
    ∧ elem h' this' 0 = Some 5
    ∧ elem h' this' 2 = Some 6.
Proof.
  destruct (Insert_places 64 int_indet ltac:(lia)
              (heap1 [5; 6]) (vec 1%positive 2 2) [5; 6] 1 9)
    as (it & this' & h' & Hrun & _ & Hload & _ & _ & _ & Hlow & Hhigh).
  - split; reflexivity.
  - unfold invariant; simpl; lia.
  - simpl; lia.
  - simpl; lia.
  - simpl; lia.
  - exists it, this', h'. split_and!; [exact Hrun | exact Hload | |].
    + rewrite (Hlow 0) by lia. reflexivity.
    + change (elem h' this' (1 + 1) = Some 6).
      rewrite (Hhigh 1) by (simpl; lia). reflexivity.
Defined.

Lemma Erase_removes_witness :
  ∃ it this' h',
    Erase 64 (ptr_add (begin (vec 1%positive 3 3)) 1)
      (vec 1%positive 3 3) (heap1 [5; 6; 7]) = Ok (it, this') h'
    ∧ GetSize this' = 2
    ∧ elem h' this' 0 = Some 5
    ∧ elem h' this' 1 = Some 7
    ∧ ∃ x, Some 7 = Some x ∧ load it h' = Ok x h'.
Proof.
  destruct (@Erase_removes Z 64 ltac:(lia)
              (heap1 [5; 6; 7]) (vec 1%positive 3 3) [5; 6; 7] 1)
    as (it & this' & h' & Hrun & _ & Hsz & _ & _ & Hlow & Hhigh & Hnext).
  - split; reflexivity.
  - unfold invariant; simpl; lia.
  - simpl; lia.
  - simpl; lia.
  - exists it, this', h'. split_and!; [exact Hrun | exact Hsz | | |].
    + rewrite (Hlow 0) by lia. reflexivity.
    + rewrite (Hhigh 1) by (simpl; lia). reflexivity.
    + apply Hnext. simpl; lia.
Defined.

Lemma PopBack_drops_last_witness :
  (∃ xs,
     contents (heap1 [5; 6]) (vec 1%positive 2 2) = Some xs
     ∧ contents (heap1 [5; 6]) (PopBack 64 (vec 1%positive 2 2))
       = Some (take (Z.to_nat (2 - 1)) xs)
     ∧ At (2 - 1) (PopBack 64 (vec 1%positive 2 2)) (heap1 [5; 6])
       = Throw (out_of_range "index >= size") (heap1 [5; 6]))
  ∧ ∃ this' h',
      PushBack 64 int_indet 9 (vec 1%positive 2 2) (heap1 [5; 6])
      = Ok this' h'
      ∧ contents h' (PopBack 64 this') = Some [5; 6].
Proof.
  destruct (PopBack_drops_last 64 int_indet ltac:(lia)
              (heap1 [5; 6]) (vec 1%positive 2 2) [5; 6] 9)
    as [Hpop (this' & h' & Hrun & Hc & _)].
  - split; reflexivity.
  - unfold invariant; simpl; lia.
  - simpl; lia.
  - simpl; lia.
  - split.
    + destruct Hpop as (xs & Hxs & Hc' & _ & _ & _ & _ & Hat);
        [simpl; lia|].
      exists xs. split_and!; [exact Hxs | exact Hc' | exact Hat].
    + exists this', h'. split; [exact Hrun | exact Hc].
Defined.

Lemma end_operations_agree_witness :
  (∃ it v1 h1 v2 h2,
     Insert 64 int_indet (end_ (vec 1%positive 2 2)) 9
       (vec 1%positive 2 2) (heap1 [5; 6]) = Ok (it, v1) h1
     ∧ PushBack 64 int_indet 9 (vec 1%positive 2 2) (heap1 [5; 6])
       = Ok v2 h2
     ∧ contents h1 v1 = contents h2 v2)
  ∧ ∃ it v1 h1,
      Erase 64 (ptr_add (end_ (vec 1%positive 2 2)) (-1))
        (vec 1%positive 2 2) (heap1 [5; 6]) = Ok (it, v1) h1
      ∧ contents h1 v1
        = contents (heap1 [5; 6]) (PopBack 64 (vec 1%positive 2 2)).
Proof.
  destruct (end_operations_agree 64 int_indet ltac:(lia)
              (heap1 [5; 6]) (vec 1%positive 2 2) [5; 6] 9)
    as [(it & v1 & h1 & v2 & h2 & Hins & Hpush & _ & _ & Hc) Herase].
  - split; reflexivity.
  - unfold invariant; simpl; lia.
  - simpl; lia.
  - simpl; lia.
  - split.
    + exists it, v1, h1, v2, h2.
      split_and!; [exact Hins | exact Hpush | exact Hc].
    + destruct Herase as (it' & v1' & h1' & Hers & _ & _ & Hc');
        [simpl; lia|].
      exists it', v1', h1'. split; [exact Hers | exact Hc'].
Defined.

Lemma operator_index_unchecked_witness :
  (∃ h',
     store (operator_index 1 (vec 1%positive 1 2)) 9 (heap1 [5; 6])
     = Ok tt h'
     ∧ elem h' (vec 1%positive 1 2) 1 = Some 9
     ∧ contents h' (vec 1%positive 1 2)
       = contents (heap1 [5; 6]) (vec 1%positive 1 2))
  ∧ (∃ h',
       store (operator_index 0 (vec 1%positive 2 0)) 9 (heap1 [5; 6])
       = Ok tt h'
       ∧ elem h' (vec 1%positive 2 0) 0 = Some 9)
  ∧ store (operator_index 2 (vec 1%positive 1 2)) 9 (heap1 [5; 6])
    = Undefined.
Proof.
  split_and!.
  - destruct (operator_index_unchecked (heap1 [5; 6]) (vec 1%positive 1 2)
                [5; 6] 1 9)
      as [Hin _]; [reflexivity|].
    destruct Hin as (h' & Hrun & Helem & _ & Hc & _); [simpl; lia|].
    exists h'. split_and!; [exact Hrun | exact Helem |].
    apply Hc. simpl; lia.
  - destruct (operator_index_unchecked (heap1 [5; 6]) (vec 1%positive 2 0)
                [5; 6] 0 9)
      as [Hin _]; [reflexivity|].
    destruct Hin as (h' & Hrun & Helem & _); [simpl; lia|].
    exists h'. split; [exact Hrun | exact Helem].
  - destruct (operator_index_unchecked (heap1 [5; 6]) (vec 1%positive 1 2)
                [5; 6] 2 9)
      as [_ Hout]; [reflexivity|].
    apply Hout. simpl; lia.
Defined.

Lemma Resize_shrinks_and_grows_witness :
  (∃ this',
     Resize 64 0 int_indet 1 (vec 1%positive 2 2) (heap1 [5; 6])
     = Ok this' (heap1 [5; 6])
     ∧ GetSize this' = 1 ∧ GetCapacity this' = 2)
  ∧ ∃ this' h',
      Resize 64 0 int_indet 5 (vec 1%positive 2 2) (heap1 [5; 6])
      = Ok this' h'
      ∧ GetSize this' = 5
      ∧ GetCapacity this' = 5
      ∧ contents h' this' = Some [5; 6; 0; 0; 0].
Proof.
  split.
  - destruct (Resize_shrinks_and_grows 64 0 int_indet ltac:(lia)
                (heap1 [5; 6]) (vec 1%positive 2 2) [5; 6] 1)
      as (xs & _ & Hshrink & _).
    + split; reflexivity.
    + unfold invariant; simpl; lia.
    + simpl; lia.
    + lia.
    + destruct Hshrink as (this' & Hrun & Hsz & Hcap & _); [simpl; lia|].
      exists this'. split_and!; [exact Hrun | exact Hsz | exact Hcap].
  - destruct (Resize_shrinks_and_grows 64 0 int_indet ltac:(lia)
                (heap1 [5; 6]) (vec 1%positive 2 2) [5; 6] 5)
      as (xs & Hxs & _ & Hgrow).
    + split; reflexivity.
    + unfold invariant; simpl; lia.
    + simpl; lia.
    + lia.
    + destruct Hgrow as (this' & h' & Hrun & Hsz & _ & Hcap & _ & Hc);
        [simpl; lia|].
      vm_compute in Hxs. injection Hxs as <-.
      exists this', h'.
      split_and!; [exact Hrun | exact Hsz | | exact Hc].
      rewrite Hcap by (simpl; lia). reflexivity.
Defined.

Lemma copy_is_deep_witness :
  ∃ this h',
    SimpleVector_copy int_indet (vec 1%positive 2 2) (heap1 [5; 6])
    = Ok this h'
    ∧ contents h' this = Some [5; 6]
    ∧ ∃ h'',
        store (operator_index 0 this) 9 h' = Ok tt h''
        ∧ elem h'' this 0 = Some 9
        ∧ contents h'' (vec 1%positive 2 2) = Some [5; 6].
Proof.
  destruct (copy_is_deep int_indet (heap1 [5; 6]) (vec 1%positive 2 2) [5; 6])
    as (this & h' & Hrun & _ & Hc & _ & _ & Hwrite).
  - split; reflexivity.
  - unfold invariant; simpl; lia.
  - exists this, h'. split_and!; [exact Hrun | exact Hc |].
    destruct (Hwrite 0 9) as (h'' & Hst & Helem & Hsrc); [simpl; lia|].
    exists h''. split_and!; [exact Hst | exact Helem | exact Hsrc].
Defined.

Lemma assign_copy_replaces_witness :
  ∃ objs' h' c,
    assign_copy int_indet 2%positive 1%positive
      {[ 1%positive := vec 1%positive 2 2; 2%positive := vec 2%positive 1 1 ]}
      ({[ 1%positive := [5; 6]; 2%positive := [9] ]} : gmap positive (list Z))
    = Ok objs' h'
    ∧ objs' !! 2%positive = Some c
    ∧ objs' !! 1%positive = Some (vec 1%positive 2 2)
    ∧ contents h' c = Some [5; 6]
    ∧ contents h' (vec 1%positive 2 2) = Some [5; 6]
    ∧ h' !! 2%positive = None
    ∧ base (raw_ptr_ (items_ c)) ≠ Some 1%positive.
Proof.
  destruct (assign_copy_replaces int_indet
              {[ 1%positive := vec 1%positive 2 2;
                 2%positive := vec 2%positive 1 1 ]}
              {[ 1%positive := [5; 6]; 2%positive := [9] ]}
              2%positive 1%positive
              (vec 1%positive 2 2) (vec 2%positive 1 1) [5; 6] [9])
    as (objs' & h' & c & Hrun & Hthis & Hrhs & _ & _ & Hc & Ha & Hfree
        & _ & _ & Hown).
  - lia.
  - reflexivity.
  - reflexivity.
  - split; reflexivity.
  - unfold invariant; simpl; lia.
  - reflexivity.
  - simpl. intros l [= <-]. discriminate.
  - exists objs', h', c.
    split_and!; [exact Hrun | exact Hthis | exact Hrhs | exact Hc | exact Ha
                | |].
    + apply Hfree. reflexivity.
    + apply Hown. reflexivity.
Defined.

Lemma ArrayPtr_ownership_witness :
  (∃ a h' buf,
     ArrayPtr_sized int_indet 3 ∅ = Ok a h'
     ∧ ArrayPtr_bool a = true
     ∧ block h' a = Some buf
     ∧ Z.of_nat (length buf) = 3)
  ∧ (let* _ := ArrayPtr_dtor
                 (snd (ArrayPtr_Release {| raw_ptr_ := Ptr (Some 1%positive) 0 |}))
     in ArrayPtr_dtor
          (ArrayPtr_raw
             (fst (ArrayPtr_Release
                     {| raw_ptr_ := Ptr (Some 1%positive) 0 |}))))
      (heap1 [5; 6])
    = Ok tt (released (heap1 [5; 6])
               {| raw_ptr_ := Ptr (Some 1%positive) 0 |}).
Proof.
  split.
  - destruct (ArrayPtr_ownership int_indet ∅) as [Hsized _].
    destruct (Hsized 3) as (a & h' & buf & Hrun & Hbool & Hblk & Hlen & _);
      [lia|].
    exists a, h', buf.
    split_and!; [exact Hrun | exact Hbool | exact Hblk | exact Hlen].
  - destruct (ArrayPtr_ownership int_indet (heap1 [5; 6])) as [_ Hrel].
    destruct (Hrel {| raw_ptr_ := Ptr (Some 1%positive) 0 |} [5; 6])
      as (_ & _ & _ & Hboth & _); [reflexivity|].
    exact Hboth.
Defined.

Lemma copy_equals_source_witness :
  ∃ b h',
    SimpleVector_copy int_indet (vec 1%positive 2 2) (heap1 [5; 6])
    = Ok b h'
    ∧ operator_eq Z.eqb (vec 1%positive 2 2) b h' = Ok true h'.
Proof.
  destruct (copy_equals_source Z.eqb int_indet (heap1 [5; 6])
              (vec 1%positive 2 2) [5; 6])
    as (b & h' & Hrun & Heq & _).
  - intros x. lia.
  - split; reflexivity.
  - unfold invariant; simpl; lia.
  - exists b, h'. split; [exact Hrun | exact Heq].
Defined.

Lemma eq_iff_le_and_ge_witness :
  ∃ eq le ge,
    operator_eq Z.eqb (vec 1%positive 2 2) (vec 2%positive 2 2)
      ({[ 1%positive := [5; 6]; 2%positive := [5; 7] ]}
         : gmap positive (list Z))
    = Ok eq {[ 1%positive := [5; 6]; 2%positive := [5; 7] ]}
    ∧ operator_le Z.ltb (vec 1%positive 2 2) (vec 2%positive 2 2)
        {[ 1%positive := [5; 6]; 2%positive := [5; 7] ]}
      = Ok le {[ 1%positive := [5; 6]; 2%positive := [5; 7] ]}
    ∧ operator_ge Z.ltb (vec 1%positive 2 2) (vec 2%positive 2 2)
        {[ 1%positive := [5; 6]; 2%positive := [5; 7] ]}
      = Ok ge {[ 1%positive := [5; 6]; 2%positive := [5; 7] ]}
    ∧ eq = le && ge.
Proof.
  apply (eq_iff_le_and_ge Z.eqb Z.ltb
           {[ 1%positive := [5; 6]; 2%positive := [5; 7] ]}
           (vec 1%positive 2 2) (vec 2%positive 2 2) [5; 6] [5; 7]).
  - intros x y. lia.
  - split; reflexivity.
  - split; reflexivity.
  - unfold invariant; simpl; lia.
  - unfold invariant; simpl; lia.
Defined.

Lemma ordering_is_total_witness :
  ∃ lt lt',
    operator_lt Z.ltb (vec 1%positive 2 2) (vec 2%positive 2 2)
      ({[ 1%positive := [5; 6]; 2%positive := [5; 7] ]}
         : gmap positive (list Z))
    = Ok lt {[ 1%positive := [5; 6]; 2%positive := [5; 7] ]}
    ∧ operator_lt Z.ltb (vec 2%positive 2 2) (vec 1%positive 2 2)
        {[ 1%positive := [5; 6]; 2%positive := [5; 7] ]}
      = Ok lt' {[ 1%positive := [5; 6]; 2%positive := [5; 7] ]}
    ∧ lt && lt' = false
    ∧ negb lt' || negb lt = true.
Proof.
  destruct (ordering_is_total Z.ltb
              {[ 1%positive := [5; 6]; 2%positive := [5; 7] ]}
              (vec 1%positive 2 2) (vec 2%positive 2 2) [5; 6] [5; 7])
    as (lt & lt' & Hlt & Hlt' & Hnot & _ & _ & Htot & _).
  - intros x y. lia.
  - split; reflexivity.
  - split; reflexivity.
  - unfold invariant; simpl; lia.
  - unfold invariant; simpl; lia.
  - exists lt, lt'.
    split_and!; [exact Hlt | exact Hlt' | exact Hnot | exact Htot].
Defined.

Lemma Reserve_then_pushes_witness :
  ∃ v1 h1 v2 h2,
    Reserve 0 int_indet 4 (vec 1%positive 2 2) (heap1 [5; 6]) = Ok v1 h1
    ∧ PushBack_all 64 int_indet [7; 8] v1 h1 = Ok v2 h2
    ∧ items_ v2 = items_ v1
    ∧ GetCapacity v2 = 4
    ∧ contents h2 v2 = Some [5; 6; 7; 8].
Proof.
  destruct (Reserve_then_pushes 64 0 int_indet ltac:(lia)
              (heap1 [5; 6]) (vec 1%positive 2 2) [5; 6] 4 [7; 8])
    as (old & v1 & h1 & v2 & h2 & Hold & Hres & Hrun & Hitems & Hcap & _
        & Hc).
  - split; reflexivity.
  - unfold invariant; simpl; lia.
  - simpl; lia.
  - lia.
  - simpl; lia.
  - vm_compute in Hold. injection Hold as <-.
    exists v1, h1, v2, h2.
    split_and!; [exact Hres | exact Hrun | exact Hitems | exact Hcap
                | exact Hc].
Defined.


Lemma move_then_destroy_witness :
  (let* _ := SimpleVector_dtor (snd (SimpleVector_move (vec 1%positive 2 2)))
   in SimpleVector_dtor (fst (SimpleVector_move (vec 1%positive 2 2))))
    (heap1 [5; 6])
  = Ok tt (released (heap1 [5; 6]) (items_ (vec 1%positive 2 2))).
Proof.
  destruct (move_then_destroy (heap1 [5; 6]) (vec 1%positive 2 2) [5; 6])
    as (_ & Hboth & _); [reflexivity|].
  exact Hboth.
Defined.
